(** * The simple projection operator of the vectorized execution engine

    A shallow embedding of [pkg/sql/colexec/simple_project.go] and the
    properties of its projecting batches and of the identity-keyed cache
    of the operator.

    Go objects live in typed stores indexed by locations; a pointer is a
    location, reference equality is equality of locations.  A method is a
    function in a state-and-panic monad over those stores. *)

From stdpp Require Import base numbers option list gmap fin_maps fin_sets strings.

Open Scope Z_scope.

(** ** Machine integers *)

(** Conversion to [uint32]: the value modulo [2^32]. *)
Definition uint32 (z : Z) : Z := z mod 2 ^ 32.

(** Conversion to [int] (64 bits wide, two's complement). *)
Definition int (z : Z) : Z := (z + 2 ^ 63) mod 2 ^ 64 - 2 ^ 63.

(** ** Locations, panics and the monad *)

Definition loc := positive.

Inductive panic :=
| nil_dereference
| index_out_of_range
| InternalError (msg : string).

Inductive result (A : Type) :=
| Ok (a : A)
| Panicked (p : panic).
Arguments Ok {A} a.
Arguments Panicked {A} p.

(** A slice header: backing array, offset of the first element in it,
    length and capacity.  The nil slice has no backing array. *)
Record slice := Slice {
  sl_ptr : option loc;
  sl_off : nat;
  sl_len : nat;
  sl_cap : nat
}.

(** Modelled from the spec: the column type [coltypes.T] is declared
    outside this file; an integer tag stands for it. *)
Definition T := Z.

(** An interface value of type [coldata.Batch] as the upstream hands it
    out: nil, or a pointer to a batch of the column-batch type.  Its
    identity, the key of the cache, is that pointer. *)
Definition Batch := option loc.

(** [projectingBatch]: the embedded [coldata.Batch] and the projection. *)
Record projectingBatch := ProjectingBatch {
  pb_Batch : Batch;
  pb_projection : slice
}.

(** An interface value of type [Operator]: nil, an operator of some other
    kind, or a pointer to a [simpleProjectOp]. *)
Inductive Operator :=
| nilOp
| otherOp (l : loc)
| projectOp (l : loc).

(** [simpleProjectOp]; [op_input] is the field of the embedded
    [OneInputNode]. *)
Record simpleProjectOp := SimpleProjectOp {
  op_input : Operator;
  op_projection : slice;
  op_batches : gmap Batch loc;
  op_numBatchesLoggingThreshold : Z
}.

(** The stores.  [arrays] holds the backing arrays of [[]uint32] slices,
    [vecs] the column vectors (their type tag; the values play no role),
    [membatches] the column batches handed out by upstream operators (the
    vectors of their columns), [pbatches] and [operators] the objects of
    this file.  [verbosity] is the logging level and [logged] the
    arguments of the [log.Infof] calls made so far. *)
Record Heap := MkHeap {
  arrays : gmap loc (list Z);
  vecs : gmap loc T;
  membatches : gmap loc (list loc);
  pbatches : gmap loc projectingBatch;
  operators : gmap loc simpleProjectOp;
  verbosity : Z;
  logged : list Z
}.

Definition set_arrays (f : gmap loc (list Z) → gmap loc (list Z)) (h : Heap) : Heap :=
  MkHeap (f (arrays h)) (vecs h) (membatches h) (pbatches h) (operators h)
         (verbosity h) (logged h).
Definition set_vecs (f : gmap loc T → gmap loc T) (h : Heap) : Heap :=
  MkHeap (arrays h) (f (vecs h)) (membatches h) (pbatches h) (operators h)
         (verbosity h) (logged h).
Definition set_membatches (f : gmap loc (list loc) → gmap loc (list loc)) (h : Heap) : Heap :=
  MkHeap (arrays h) (vecs h) (f (membatches h)) (pbatches h) (operators h)
         (verbosity h) (logged h).
Definition set_pbatches (f : gmap loc projectingBatch → gmap loc projectingBatch)
    (h : Heap) : Heap :=
  MkHeap (arrays h) (vecs h) (membatches h) (f (pbatches h)) (operators h)
         (verbosity h) (logged h).
Definition set_operators (f : gmap loc simpleProjectOp → gmap loc simpleProjectOp)
    (h : Heap) : Heap :=
  MkHeap (arrays h) (vecs h) (membatches h) (pbatches h) (f (operators h))
         (verbosity h) (logged h).
Definition set_logged (f : list Z → list Z) (h : Heap) : Heap :=
  MkHeap (arrays h) (vecs h) (membatches h) (pbatches h) (operators h)
         (verbosity h) (f (logged h)).

(** Computations that read and write the stores and may panic; a panic
    keeps the stores as they were when it was raised. *)
Definition M (A : Type) : Type := Heap → result A * Heap.

Definition ret {A} (a : A) : M A := fun h => (Ok a, h).
Definition bind {A B} (m : M A) (k : A → M B) : M B := fun h =>
  match m h with
  | (Ok a, h') => k a h'
  | (Panicked p, h') => (Panicked p, h')
  end.
Definition raise {A} (p : panic) : M A := fun h => (Panicked p, h).
Definition gets {A} (f : Heap → A) : M A := fun h => (Ok (f h), h).
Definition modify (f : Heap → Heap) : M unit := fun h => (Ok tt, f h).

Notation "'do' x <- m ; k" := (bind m (fun x => k))
  (at level 10, x name, m at level 100, k at level 200, only parsing).
Notation "'do' ' pat <- m ; k" := (bind m (fun x => match x with pat => k end))
  (at level 10, pat pattern, m at level 100, k at level 200, only parsing).
Notation "'exec' m ; k" := (bind m (fun _ => k))
  (at level 10, m at level 100, k at level 200, only parsing).

(** ** Slices *)

Module Go.

(** The elements a slice denotes in the current stores. *)
Definition elems (h : Heap) (s : slice) : list Z :=
  match sl_ptr s with
  | Some a => take (sl_len s) (drop (sl_off s) (default [] (arrays h !! a)))
  | None => []
  end.

Definition len (s : slice) : Z := Z.of_nat (sl_len s).

(** [s[i]] for an [int] index. *)
Definition index (s : slice) (i : Z) : M Z := fun h =>
  if (0 <=? i) && (i <? len s) then
    match elems h s !! Z.to_nat i with
    | Some x => (Ok x, h)
    | None => (Panicked index_out_of_range, h)
    end
  else (Panicked index_out_of_range, h).

(** [make([]uint32, n)]: a new zeroed array of [n] elements. *)
Definition make (n : nat) : M slice := fun h =>
  let a := fresh (dom (arrays h)) in
  (Ok (Slice (Some a) 0 n n), set_arrays <[a := replicate n 0]> h).

(** Storing [xs] into an array from position [k] on. *)
Definition blit (k : nat) (xs arr : list Z) : list Z :=
  take k arr ++ take (length arr - k) xs ++ drop (k + length xs) arr.

(** [copy(dst, src)]: the first [min(len(dst), len(src))] elements. *)
Definition copy (dst src : slice) : M unit := fun h =>
  match sl_ptr dst with
  | Some a =>
      let xs := take (sl_len dst) (elems h src) in
      (Ok tt, set_arrays (alter (blit (sl_off dst) xs) a) h)
  | None => (Ok tt, h)
  end.

(** The capacity [append] asks for when the array is full: doubling
    below 1024 elements, a quarter more above.  (The allocator rounds
    this up to a size class; no function of this file reads a
    capacity.) *)
Definition growcap (old : nat) : nat :=
  if (old =? 0)%nat then 1%nat
  else if (old <? 1024)%nat then (old + old)%nat
  else (old + old `div` 4)%nat.

(** [append(s, x)]: in place when the capacity allows, otherwise into
    a new array that receives the old elements. *)
Definition append (s : slice) (x : Z) : M slice := fun h =>
  match sl_ptr s with
  | Some a =>
      if (sl_len s <? sl_cap s)%nat then
        (Ok (Slice (Some a) (sl_off s) (S (sl_len s)) (sl_cap s)),
         set_arrays (alter (blit (sl_off s + sl_len s) [x]) a) h)
      else
        let c := growcap (sl_cap s) in
        let a' := fresh (dom (arrays h)) in
        (Ok (Slice (Some a') 0 (S (sl_len s)) c),
         set_arrays <[a' := elems h s ++ x :: replicate (c - S (sl_len s)) 0]> h)
  | None =>
      let a' := fresh (dom (arrays h)) in
      (Ok (Slice (Some a') 0 1 1), set_arrays <[a' := [x]]> h)
  end.

End Go.

(** ** The column-batch type of upstream operators *)

Module coldata.

(** Modelled from the spec: the column-batch type ([coldata.Batch]) is
    declared outside this file.  A batch is an ordered sequence of column
    vectors; a method called on the nil interface value panics. *)
Definition deref (b : Batch) : M (loc * list loc) := fun h =>
  match b with
  | Some l =>
      match membatches h !! l with
      | Some cols => (Ok (l, cols), h)
      | None => (Panicked nil_dereference, h)
      end
  | None => (Panicked nil_dereference, h)
  end.

(** Modelled from the spec: [Width] of a column batch, declared outside
    this file, is the number of its columns. *)
Definition Width (b : Batch) : M Z :=
  do ' (_, cols) <- deref b;
  ret (Z.of_nat (length cols)).

(** Modelled from the spec: [ColVec] of a column batch, declared outside
    this file, is the vector at a position of the sequence. *)
Definition ColVec (b : Batch) (i : Z) : M loc :=
  do ' (_, cols) <- deref b;
  if (0 <=? i) && (i <? Z.of_nat (length cols)) then
    match cols !! Z.to_nat i with
    | Some v => ret v
    | None => raise index_out_of_range
    end
  else raise index_out_of_range.

(** Modelled from the spec: [AppendCol] of a column batch, declared
    outside this file, adds a new vector of the given type at the end. *)
Definition AppendCol (b : Batch) (t : T) : M unit :=
  do ' (l, cols) <- deref b;
  do v <- gets (fun h => fresh (dom (vecs h)));
  exec modify (set_vecs <[v := t]>);
  modify (set_membatches <[l := cols ++ [v]]>).

End coldata.

(** ** Collaborators: internal errors and logging *)

Module execerror.

(** Modelled from the spec: [execerror.VectorizedInternalPanic] is
    declared outside this file; it aborts the pipeline with an internal
    error carrying the message. *)
Definition VectorizedInternalPanic {A} (msg : string) : M A :=
  raise (InternalError msg).

End execerror.

Module log.

(** Modelled from the spec: [log.V(level)], declared outside this file,
    tells whether logging at that level is on. *)
Definition V (level : Z) : M bool := gets (fun h => level <=? verbosity h).

(** Modelled from the spec: [log.Infof], declared outside this file,
    emits a log line; the model records the one argument of the format
    string. *)
Definition Infof (arg : Z) : M unit := modify (set_logged (fun l => l ++ [arg])).

End log.

(** ** simple_project.go *)

Definition deref_projectingBatch (b : loc) : M projectingBatch := fun h =>
  match pbatches h !! b with
  | Some pb => (Ok pb, h)
  | None => (Panicked nil_dereference, h)
  end.

Definition deref_simpleProjectOp (d : loc) : M simpleProjectOp := fun h =>
  match operators h !! d with
  | Some op => (Ok op, h)
  | None => (Panicked nil_dereference, h)
  end.

(** [&projectingBatch{...}] and [&simpleProjectOp{...}]. *)
Definition new_projectingBatch (pb : projectingBatch) : M loc := fun h =>
  let l := fresh (dom (pbatches h)) in
  (Ok l, set_pbatches <[l := pb]> h).

Definition new_simpleProjectOp (op : simpleProjectOp) : M loc := fun h =>
  let l := fresh (dom (operators h)) in
  (Ok l, set_operators <[l := op]> h).

Definition newProjectionBatch (projection : slice) : M loc :=
  do s <- Go.make (sl_len projection);
  do p <- new_projectingBatch (ProjectingBatch None s);
  (* We make a copy of projection to be safe. *)
  exec Go.copy s projection;
  ret p.

Definition ColVec (b : loc) (i : Z) : M loc :=
  do pb <- deref_projectingBatch b;
  do x <- Go.index (pb_projection pb) i;
  (* int(x) of a uint32 x is the same number *)
  coldata.ColVec (pb_Batch pb) x.

Definition ColVecs (b : loc) : M (list loc) :=
  exec execerror.VectorizedInternalPanic (A := unit) "projectingBatch doesn't support ColVecs()";
  (* This code is unreachable. *)
  ret [].

Definition Width (b : loc) : M Z :=
  do pb <- deref_projectingBatch b;
  ret (Go.len (pb_projection pb)).

Definition AppendCol (b : loc) (t : T) : M unit :=
  do pb <- deref_projectingBatch b;
  exec coldata.AppendCol (pb_Batch pb) t;
  do w <- coldata.Width (pb_Batch pb);
  do s <- Go.append (pb_projection pb) (uint32 (uint32 w - 1));
  modify (set_pbatches <[b := ProjectingBatch (pb_Batch pb) s]>).

(** The loop [for i := range projection] of [NewSimpleProjectOp], running
    over the elements from index [i] on; it has no early exit. *)
Fixpoint redundant_loop (xs : list Z) (i : Z) (projectionIsRedundant : bool) : bool :=
  match xs with
  | [] => projectionIsRedundant
  | x :: xs' =>
      redundant_loop xs' (i + 1)
        (if decide (x ≠ uint32 i) then false else projectionIsRedundant)
  end.

Definition projectionIsRedundant (numInputCols : Z) (projection : slice) (h : Heap) : bool :=
  if decide (numInputCols = Go.len projection)
  then redundant_loop (Go.elems h projection) 0 true
  else false.

Definition NewSimpleProjectOp (input : Operator) (numInputCols : Z) (projection : slice)
    : M Operator :=
  do redundant <- gets (projectionIsRedundant numInputCols projection);
  if redundant then ret input
  else
    do p <- Go.make (sl_len projection);
    do s <- new_simpleProjectOp (SimpleProjectOp input p ∅ 128);
    (* We make a copy of projection to be safe. *)
    exec Go.copy p projection;
    ret (projectOp s).

(** [Next]; [batch] is what [d.input.Next(ctx)] returned. *)
Definition Next (d : loc) (batch : Batch) : M loc :=
  do op <- deref_simpleProjectOp d;
  do projBatch <-
    match op_batches op !! batch with
    | Some projBatch => ret projBatch
    | None =>
        do projBatch <- newProjectionBatch (op_projection op);
        let batches := <[batch := projBatch]> (op_batches op) in
        let size := Z.of_nat (size batches) in
        do threshold <-
          (if decide (size = op_numBatchesLoggingThreshold op) then
             do v <- log.V 1;
             exec (if v then log.Infof size else ret tt);
             ret (int (op_numBatchesLoggingThreshold op * 2))
           else ret (op_numBatchesLoggingThreshold op));
        exec modify (set_operators
          <[d := SimpleProjectOp (op_input op) (op_projection op) batches threshold]>);
        ret projBatch
    end;
  do pb <- deref_projectingBatch projBatch;
  exec modify (set_pbatches <[projBatch := ProjectingBatch batch (pb_projection pb)]>);
  ret projBatch.

(** ** The life of an operator *)

(** What happens around an operator between its construction and its
    teardown: the pipeline pulls and the upstream hands back [batch]; a
    consumer appends a column through a view it was handed; the upstream
    rewrites its batches and vectors; the logging level is changed; the
    caller of the constructor stores into an array. *)
Inductive event :=
| Pull (batch : Batch)
| Append (v : loc) (t : T)
| Upstream (vs : gmap loc T) (bs : gmap loc (list loc))
| Verbosity (level : Z)
| Store (a : loc) (i : nat) (x : Z).

Definition step (d : loc) (e : event) (h : Heap) : Heap :=
  match e with
  | Pull batch => snd (Next d batch h)
  | Append v t => snd (AppendCol v t h)
  | Upstream vs bs => set_vecs (fun _ => vs) (set_membatches (fun _ => bs) h)
  | Verbosity level =>
      MkHeap (arrays h) (vecs h) (membatches h) (pbatches h) (operators h) level (logged h)
  | Store a i x => set_arrays (alter <[i := x]> a) h
  end.

(** The views the operator [d] has handed out. *)
Definition view_of (d : loc) (h : Heap) (v : loc) : Prop :=
  ∃ op k, operators h !! d = Some op ∧ op_batches op !! k = Some v.

(** Consumers hold views of the operator only, and the caller of the
    constructor stores only into the arrays [ext] that existed when it
    called. *)
Definition admissible (ext : gset loc) (d : loc) (h : Heap) (e : event) : Prop :=
  match e with
  | Append v _ => view_of d h v
  | Store a _ _ => a ∈ ext
  | _ => True
  end.

Fixpoint run (d : loc) (es : list event) (h : Heap) : Heap :=
  match es with
  | [] => h
  | e :: es' => run d es' (step d e h)
  end.

Fixpoint admissible_trace (ext : gset loc) (d : loc) (h : Heap) (es : list event) : Prop :=
  match es with
  | [] => True
  | e :: es' => admissible ext d h e ∧ admissible_trace ext d (step d e h) es'
  end.

(** A slice header that fits its backing array. *)
Definition valid_slice (h : Heap) (s : slice) : Prop :=
  match sl_ptr s with
  | Some a =>
      ∃ arr, arrays h !! a = Some arr ∧
             (sl_off s + sl_cap s ≤ length arr)%nat ∧ (sl_len s ≤ sl_cap s)%nat
  | None => sl_len s = 0%nat ∧ sl_cap s = 0%nat
  end.

(** The states of the stores in the life of the operator [d] that
    [NewSimpleProjectOp input n proj] built in [h0]. *)
Inductive reachable (h0 : Heap) (input : Operator) (n : Z) (proj : slice) (d : loc)
    : Heap → Prop :=
| reachable_new h1 :
    valid_slice h0 proj →
    projectionIsRedundant n proj h0 = false →
    NewSimpleProjectOp input n proj h0 = (Ok (projectOp d), h1) →
    reachable h0 input n proj d h1
| reachable_step h e :
    reachable h0 input n proj d h →
    admissible (dom (arrays h0)) d h e →
    reachable h0 input n proj d (step d e h).

(** A slice that has its backing array [a] for itself, from the start of
    the array, and holds [xs]. *)
Definition owns (h : Heap) (s : slice) (a : loc) (xs : list Z) : Prop :=
  sl_ptr s = Some a ∧ sl_off s = 0%nat ∧ valid_slice h s ∧ Go.elems h s = xs.

(** The invariant of the operator [d] built from the projection list [P]:
    its own copy of [P] and the lists of its views (each starting with
    [P]) sit in arrays of their own, apart from each other and from the
    arrays [ext]; a view is cached under the batch it wraps. *)
Record Inv (ext : gset loc) (P : list Z) (d : loc) (h : Heap) : Prop := {
  inv_ext : ext ⊆ dom (arrays h);
  inv_op : ∃ op a,
    operators h !! d = Some op ∧ owns h (op_projection op) a P ∧ (a ∉ ext) ∧
    (∀ k v, op_batches op !! k = Some v →
       ∃ pb a' xs, pbatches h !! v = Some pb ∧ pb_Batch pb = k ∧
                   owns h (pb_projection pb) a' (P ++ xs) ∧ (a' ∉ ext) ∧ a' ≠ a) ∧
    (∀ k1 k2 v1 v2 pb1 pb2,
       op_batches op !! k1 = Some v1 → op_batches op !! k2 = Some v2 →
       pbatches h !! v1 = Some pb1 → pbatches h !! v2 = Some pb2 →
       sl_ptr (pb_projection pb1) = sl_ptr (pb_projection pb2) → k1 = k2)
}.

(** The threshold after [k] doublings, and the sizes reported before. *)
Definition threshold (k : nat) : Z := 128 * 2 ^ Z.of_nat k.
Definition reported (k : nat) : list Z := threshold <$> seq 0 k.

(** ** The words of the specification *)

(** "[len(projection) == numInputCols] and [projection[i] == i] for
    every [i]". *)
Definition identity_permutation (numInputCols : Z) (P : list Z) : Prop :=
  Z.of_nat (length P) = numInputCols ∧ ∀ i x, P !! i = Some x → x = Z.of_nat i.

(** ** Statements about single calls *)

(** The log and the threshold after a miss that brought the cache to
    [size] entries. *)
Definition logged_after_miss (op : simpleProjectOp) (size : Z) (h : Heap) : list Z :=
  if decide (size = op_numBatchesLoggingThreshold op)
  then (if 1 <=? verbosity h then logged h ++ [size] else logged h)
  else logged h.

Definition threshold_after_miss (op : simpleProjectOp) (size : Z) : Z :=
  if decide (size = op_numBatchesLoggingThreshold op)
  then int (op_numBatchesLoggingThreshold op * 2)
  else op_numBatchesLoggingThreshold op.

(** Two states of the stores that differ at most in what the arrays
    [ext] hold. *)
Definition agree (ext : gset loc) (h h' : Heap) : Prop :=
  dom (arrays h) = dom (arrays h') ∧
  (∀ a, a ∉ ext → arrays h !! a = arrays h' !! a) ∧
  vecs h = vecs h' ∧ membatches h = membatches h' ∧ pbatches h = pbatches h' ∧
  operators h = operators h' ∧ verbosity h = verbosity h' ∧ logged h = logged h'.

(** The claim on the elision, for one call. *)
Definition elides_exactly_identity (input : Operator) (n : Z) (proj : slice) (h : Heap)
    : Prop :=
  (identity_permutation n (Go.elems h proj) →
     NewSimpleProjectOp input n proj h = (Ok input, h)) ∧
  (¬ identity_permutation n (Go.elems h proj) →
     ∃ l, fst (NewSimpleProjectOp input n proj h) = Ok (projectOp l) ∧
          (l ∉ dom (operators h)) ∧
          l ∈ dom (operators (snd (NewSimpleProjectOp input n proj h)))).

(** The claim on [AppendCol], for one call on the view [b], which holds
    [pb] and wraps the batch [l] of columns [cols]. *)
Definition appended_column_visible (h : Heap) (b : loc) (t : T)
    (pb : projectingBatch) (l : loc) (cols : list loc) : Prop :=
  let h' := snd (AppendCol b t h) in
  let w := Go.len (pb_projection pb) in
  fst (AppendCol b t h) = Ok tt ∧
  fst (Width b h) = Ok w ∧
  fst (Width b h') = Ok (w + 1) ∧
  ∃ v pb',
    membatches h' !! l = Some (cols ++ [v]) ∧
    (v ∉ dom (vecs h)) ∧ vecs h' !! v = Some t ∧
    fst (ColVec b w h') = Ok v ∧
    pbatches h' !! b = Some pb' ∧ pb_Batch pb' = Some l ∧
    Go.elems h' (pb_projection pb') =
      Go.elems h (pb_projection pb) ++ [Z.of_nat (length cols)].

(** ** Concrete stores *)

(** The caller's buffer holds [[2; 0]]; the upstream owns the batch 5 of
    three columns. *)
Definition ex_heap : Heap :=
  MkHeap {[ 1%positive := [2; 0] ]}
         {[ 10%positive := 0; 11%positive := 0; 12%positive := 0 ]}
         {[ 5%positive := [10%positive; 11%positive; 12%positive] ]}
         ∅ ∅ 1 [].

Definition ex_proj : slice := Slice (Some 1%positive) 0 2 2.

Definition ex_built : Heap := snd (NewSimpleProjectOp (otherOp 9%positive) 3 ex_proj ex_heap).

(** A view on its own: it wraps the batch 5 and holds [[2; 0]]. *)
Definition ex_view : projectingBatch :=
  ProjectingBatch (Some 5%positive) (Slice (Some 3%positive) 0 2 2).

Definition ex_view_heap : Heap :=
  MkHeap {[ 3%positive := [2; 0] ]}
         {[ 10%positive := 0; 11%positive := 0; 12%positive := 0 ]}
         {[ 5%positive := [10%positive; 11%positive; 12%positive] ]}
         {[ 1%positive := ex_view ]} ∅ 1 [].

(** A projection list of [2^32 + 1] elements that holds at every position
    the index converted to [uint32]: 0, 1, ..., [2^32 - 1], and then 0 again
    at position [2^32]. *)
Definition wide_projection : list Z :=
  (fun i => uint32 (Z.of_nat i)) <$> seq 0 (Z.to_nat (2 ^ 32 + 1)).

Definition wide_slice : slice :=
  Slice (Some 1%positive) 0 (Z.to_nat (2 ^ 32 + 1)) (Z.to_nat (2 ^ 32 + 1)).

Definition wide_heap : Heap :=
  MkHeap {[ 1%positive := wide_projection ]} ∅ ∅ ∅ ∅ 0 [].

(** A batch of [2^32] columns (all of them the vector 1) and a view of
    width 0 that wraps it. *)
Definition wide_cols : list loc := replicate (Z.to_nat (2 ^ 32)) 1%positive.

Definition wide_view : projectingBatch :=
  ProjectingBatch (Some 1%positive) (Slice (Some 1%positive) 0 0 0).

Definition wide_batch_heap : Heap :=
  MkHeap {[ 1%positive := [] ]} {[ 1%positive := 0 ]} {[ 1%positive := wide_cols ]}
         {[ 1%positive := wide_view ]} ∅ 0 [].

(** The stores after [newProjectionBatch] alone: the view 1 wraps no
    batch. *)
Definition ex_unpointed : Heap := snd (newProjectionBatch ex_proj ex_heap).

(** The stores after pulls for the batches 5 and 6: the views 1 and 2. *)
Definition ex_two_views : Heap :=
  run 1%positive [Pull (Some 5%positive); Pull (Some 6%positive)] ex_built.

(** ** Traces and the threshold *)

(** The batches the upstream handed back along a trace. *)
Fixpoint pulled (es : list event) : gset Batch :=
  match es with
  | [] => ∅
  | Pull batch :: es' => {[ batch ]} ∪ pulled es'
  | _ :: es' => pulled es'
  end.

(** A trace along which the logging level is not changed. *)
Fixpoint level_kept (es : list event) : bool :=
  match es with
  | [] => true
  | Verbosity _ :: _ => false
  | _ :: es' => level_kept es'
  end.

(** The operator [d] has doubled its threshold [k] times: the threshold
    is [128 * 2^k] as an [int], the cache has not reached it, and it has
    reached the threshold before. *)
Definition threshold_state (d : loc) (h : Heap) (k : nat) : Prop :=
  ∃ op, operators h !! d = Some op ∧
        op_numBatchesLoggingThreshold op = int (threshold k) ∧ (k ≤ 56)%nat ∧
        ((k ≤ 55)%nat → Z.of_nat (size (op_batches op)) < threshold k) ∧
        (∀ j, k = S j → threshold j ≤ Z.of_nat (size (op_batches op))).

(** ** Tactics *)

Ltac heap_simpl :=
  unfold set_arrays, set_vecs, set_membatches, set_pbatches, set_logged,
    set_operators in *;
  cbn [verbosity arrays pbatches operators vecs membatches logged
       pb_projection pb_Batch sl_ptr sl_len sl_off sl_cap fst snd] in *.

(** ** Slices: elements, validity and framing *)

Section slices.
Implicit Types (h : Heap) (s : slice) (xs arr : list Z) (a : loc).

Lemma uint32_range z : 0 ≤ uint32 z < 2 ^ 32.
Proof. unfold uint32. apply Z.mod_pos_bound. lia. Qed.

Lemma uint32_small z : 0 ≤ z < 2 ^ 32 → uint32 z = z.
Proof. intros. unfold uint32. by apply Z.mod_small. Qed.

Lemma int_small z : - 2 ^ 63 ≤ z < 2 ^ 63 → int z = z.
Proof. intros. unfold int. rewrite Z.mod_small; lia. Qed.

Lemma elems_frame h h' s a :
  sl_ptr s = Some a → arrays h' !! a = arrays h !! a → Go.elems h' s = Go.elems h s.
Proof. intros Hp Ha. unfold Go.elems. by rewrite Hp, Ha. Qed.

Lemma elems_nil h s : sl_ptr s = None → Go.elems h s = [].
Proof. intros Hp. unfold Go.elems. by rewrite Hp. Qed.

Lemma valid_slice_frame h h' s :
  (∀ a, sl_ptr s = Some a → arrays h' !! a = arrays h !! a) →
  valid_slice h s → valid_slice h' s.
Proof.
  unfold valid_slice. intros Ha. destruct (sl_ptr s) as [a|]; [|done].
  by rewrite (Ha a eq_refl).
Qed.

Lemma valid_slice_dom h s a : valid_slice h s → sl_ptr s = Some a → a ∈ dom (arrays h).
Proof.
  unfold valid_slice. intros Hv Hp. rewrite Hp in Hv.
  destruct Hv as (arr & Harr & _). apply elem_of_dom. eauto.
Qed.

Lemma length_elems h s : valid_slice h s → length (Go.elems h s) = sl_len s.
Proof.
  unfold valid_slice, Go.elems. destruct (sl_ptr s) as [a|].
  - intros (arr & -> & Hcap & Hlen). simpl.
    rewrite length_take, length_drop. lia.
  - by intros [-> _].
Qed.

Lemma blit_fill xs n : length xs = n → Go.blit 0 xs (replicate n 0) = xs.
Proof.
  intros <-. unfold Go.blit. rewrite length_replicate, Nat.sub_0_r, take_0, firstn_all.
  simpl. rewrite drop_ge; [by rewrite app_nil_r | by rewrite length_replicate].
Qed.

Lemma blit_snoc arr k x :
  (k < length arr)%nat → take (S k) (Go.blit k [x] arr) = take k arr ++ [x].
Proof.
  intros Hk. unfold Go.blit.
  assert (take (length arr - k) [x] = [x]) as ->.
  { apply take_ge. simpl. lia. }
  rewrite take_app_ge; rewrite length_take; [|lia].
  replace (S k - k `min` length arr)%nat with 1%nat by lia.
  by replace (k `min` length arr)%nat with k by lia.
Qed.

Lemma length_blit k xs arr : length (Go.blit k xs arr) = length arr.
Proof.
  unfold Go.blit. rewrite !length_app, !length_take, length_drop. lia.
Qed.

End slices.

(** ** What one call does to the stores *)

Lemma Next_hit h d op batch v pb :
  operators h !! d = Some op →
  op_batches op !! batch = Some v →
  pbatches h !! v = Some pb →
  Next d batch h =
    (Ok v, set_pbatches <[v := ProjectingBatch batch (pb_projection pb)]> h).
Proof.
  intros Hop Hv Hpb. unfold Next, bind, deref_simpleProjectOp.
  rewrite Hop, Hv. unfold ret, deref_projectingBatch. by rewrite Hpb.
Qed.

Lemma elems_fresh h h' s a x :
  valid_slice h s → a ∉ dom (arrays h) → arrays h' = <[a := x]> (arrays h) →
  Go.elems h' s = Go.elems h s.
Proof.
  intros Hv Ha Hh'. destruct (sl_ptr s) as [a0|] eqn:Hp.
  - apply (elems_frame _ _ _ a0 Hp). rewrite Hh'. apply lookup_insert_ne.
    intros <-. apply Ha. by eapply valid_slice_dom.
  - by rewrite !elems_nil.
Qed.

Lemma copy_into_new h h' src a n :
  valid_slice h src → sl_len src = n →
  a ∉ dom (arrays h) →
  arrays h' = <[a := replicate n 0]> (arrays h) →
  alter (Go.blit 0 (take n (Go.elems h' src))) a (<[a := replicate n 0]> (arrays h)) =
    <[a := Go.elems h src]> (arrays h).
Proof.
  intros Hv Hn Ha Hh'.
  rewrite (elems_fresh h h' src a _ Hv Ha Hh'), alter_insert_eq. f_equal.
  rewrite take_ge by (rewrite length_elems; [lia | done]).
  apply blit_fill. by rewrite length_elems.
Qed.

Lemma Next_miss h d op batch :
  operators h !! d = Some op →
  op_batches op !! batch = None →
  valid_slice h (op_projection op) →
  let a := fresh (dom (arrays h)) in
  let v := fresh (dom (pbatches h)) in
  let n := sl_len (op_projection op) in
  let batches := <[batch := v]> (op_batches op) in
  let size := Z.of_nat (size batches) in
  Next d batch h =
    (Ok v,
     MkHeap (<[a := Go.elems h (op_projection op)]> (arrays h)) (vecs h) (membatches h)
            (<[v := ProjectingBatch batch (Slice (Some a) 0 n n)]> (pbatches h))
            (<[d := SimpleProjectOp (op_input op) (op_projection op) batches
                      (threshold_after_miss op size)]> (operators h))
            (verbosity h) (logged_after_miss op size h)).
Proof.
  intros Hop Hk Hvalid a v n batches size.
  unfold Next, bind, deref_simpleProjectOp. rewrite Hop, Hk.
  unfold newProjectionBatch, bind, Go.make, new_projectingBatch, Go.copy.
  heap_simpl.
  fold a v n. unfold ret. fold batches size.
  unfold threshold_after_miss, logged_after_miss.
  assert (a ∉ dom (arrays h)) as Ha by apply is_fresh.
  heap_simpl.
  erewrite (copy_into_new h _ (op_projection op) a n Hvalid eq_refl Ha) by reflexivity.
  destruct (decide (size = op_numBatchesLoggingThreshold op)) as [Hsz|Hsz].
  - unfold log.V, gets, log.Infof, modify, deref_projectingBatch.
    heap_simpl.
    destruct (1 <=? verbosity h); heap_simpl; rewrite lookup_insert_eq; heap_simpl;
      by rewrite insert_insert_eq.
  - unfold modify, deref_projectingBatch.
    heap_simpl. rewrite lookup_insert_eq. heap_simpl.
    by rewrite insert_insert_eq.
Qed.

Lemma NewSimpleProjectOp_elided input n proj h :
  projectionIsRedundant n proj h = true →
  NewSimpleProjectOp input n proj h = (Ok input, h).
Proof. intros Hred. unfold NewSimpleProjectOp, bind, gets. by rewrite Hred. Qed.

Lemma NewSimpleProjectOp_fresh input n proj h :
  projectionIsRedundant n proj h = false →
  let l := fresh (dom (operators h)) in
  let a := fresh (dom (arrays h)) in
  let p := Slice (Some a) 0 (sl_len proj) (sl_len proj) in
  fst (NewSimpleProjectOp input n proj h) = Ok (projectOp l) ∧
  operators (snd (NewSimpleProjectOp input n proj h)) =
    <[l := SimpleProjectOp input p ∅ 128]> (operators h) ∧
  pbatches (snd (NewSimpleProjectOp input n proj h)) = pbatches h.
Proof.
  intros Hred l a p. unfold NewSimpleProjectOp, bind, gets. rewrite Hred.
  unfold Go.make, new_simpleProjectOp, Go.copy, ret. heap_simpl. done.
Qed.

Lemma NewSimpleProjectOp_new input n proj h :
  projectionIsRedundant n proj h = false →
  valid_slice h proj →
  let l := fresh (dom (operators h)) in
  let a := fresh (dom (arrays h)) in
  let p := Slice (Some a) 0 (sl_len proj) (sl_len proj) in
  NewSimpleProjectOp input n proj h =
    (Ok (projectOp l),
     MkHeap (<[a := Go.elems h proj]> (arrays h)) (vecs h) (membatches h) (pbatches h)
            (<[l := SimpleProjectOp input p ∅ 128]> (operators h))
            (verbosity h) (logged h)).
Proof.
  intros Hred Hvalid l a p. unfold NewSimpleProjectOp, bind, gets. rewrite Hred.
  unfold Go.make, new_simpleProjectOp, Go.copy, ret. heap_simpl.
  assert (a ∉ dom (arrays h)) as Ha by apply is_fresh.
  by erewrite (copy_into_new h _ proj a _ Hvalid eq_refl Ha) by reflexivity.
Qed.

Lemma growcap_gt c : (c < Go.growcap c)%nat.
Proof.
  unfold Go.growcap. destruct (c =? 0)%nat eqn:E0; [apply Nat.eqb_eq in E0; lia|].
  apply Nat.eqb_neq in E0. destruct (c <? 1024)%nat eqn:E1; [lia|].
  apply Nat.ltb_ge in E1.
  assert (0 < c `div` 4)%nat; [|lia].
  apply Nat.div_str_pos. lia.
Qed.

Lemma blit_snoc_off arr off n x :
  (off + n < length arr)%nat →
  take (S n) (drop off (Go.blit (off + n) [x] arr)) = take n (drop off arr) ++ [x].
Proof.
  intros Hk. unfold Go.blit.
  assert (take (length arr - (off + n)) [x] = [x]) as ->.
  { apply take_ge. simpl. lia. }
  rewrite drop_app_le by (rewrite length_take; lia).
  rewrite <- take_drop_commute.
  rewrite take_app_ge; rewrite length_take, length_drop; [|lia].
  replace (S n - n `min` (length arr - off))%nat with 1%nat by lia.
  done.
Qed.

(** [append] never panics; the new slice holds the old elements and the
    new one, and no array but the slice's own is written. *)
Lemma append_spec h s x :
  valid_slice h s →
  ∃ s' h' a',
    Go.append s x h = (Ok s', h') ∧
    sl_ptr s' = Some a' ∧ (sl_ptr s = Some a' ∧ sl_off s' = sl_off s ∨
                           (a' ∉ dom (arrays h)) ∧ sl_off s' = 0%nat) ∧
    sl_len s' = S (sl_len s) ∧
    valid_slice h' s' ∧
    Go.elems h' s' = Go.elems h s ++ [x] ∧
    (∀ a0, a0 ≠ a' → arrays h' !! a0 = arrays h !! a0) ∧
    dom (arrays h) ⊆ dom (arrays h') ∧
    h' = set_arrays (fun _ => arrays h') h.
Proof.
  intros Hv. unfold Go.append.
  assert (fresh (dom (arrays h)) ∉ dom (arrays h)) as Hf by apply is_fresh.
  destruct (sl_ptr s) as [a|] eqn:Hp.
  - pose proof Hv as Hv'. unfold valid_slice in Hv'. rewrite Hp in Hv'.
    destruct Hv' as (arr & Harr & Hcap & Hlen).
    destruct (sl_len s <? sl_cap s)%nat eqn:Hlt.
    + apply Nat.ltb_lt in Hlt.
      eexists _, _, a. split; [done|]. heap_simpl.
      split; [done|]. split; [by left|]. split; [done|].
      split.
      { unfold valid_slice. heap_simpl. rewrite lookup_alter_eq, Harr. simpl.
        eexists. split; [done|]. rewrite length_blit. lia. }
      split.
      { unfold Go.elems. heap_simpl. rewrite Hp, lookup_alter_eq, Harr. simpl.
        apply blit_snoc_off. lia. }
      split; [intros a0 Ha0; by rewrite lookup_alter_ne|].
      split; [by rewrite dom_alter_L|done].
    + apply Nat.ltb_ge in Hlt.
      pose proof (growcap_gt (sl_cap s)) as Hg.
      pose proof (length_elems h s Hv) as Hel.
      eexists _, _, (fresh (dom (arrays h))). split; [done|]. heap_simpl.
      split; [done|]. split; [by right|]. split; [done|].
      split.
      { unfold valid_slice. heap_simpl. rewrite lookup_insert_eq.
        eexists. split; [done|].
        rewrite length_app. simpl. rewrite length_replicate. lia. }
      split.
      { unfold Go.elems at 1. heap_simpl. rewrite lookup_insert_eq. simpl.
        rewrite drop_0, take_app_ge by lia.
        replace (S (sl_len s) - length (Go.elems h s))%nat with 1%nat by lia.
        done. }
      split; [intros a0 Ha0; by rewrite lookup_insert_ne|].
      split; [rewrite dom_insert_L; set_solver|done].
  - pose proof Hv as Hv'. unfold valid_slice in Hv'. rewrite Hp in Hv'.
    destruct Hv' as [Hlen Hcap].
    eexists _, _, (fresh (dom (arrays h))). split; [done|]. heap_simpl.
    split; [done|]. split; [by right|]. split; [by rewrite Hlen|].
    split.
    { unfold valid_slice. heap_simpl. rewrite lookup_insert_eq.
      eexists. split; [done|]. simpl. lia. }
    split.
    { unfold Go.elems at 1. heap_simpl. rewrite lookup_insert_eq.
      by rewrite elems_nil. }
    split; [intros a0 Ha0; by rewrite lookup_insert_ne|].
    split; [rewrite dom_insert_L; set_solver|done].
Qed.

Lemma elems_arrays h h' s : arrays h' = arrays h → Go.elems h' s = Go.elems h s.
Proof. intros Ha. unfold Go.elems. by rewrite Ha. Qed.

Lemma valid_slice_arrays h h' s : arrays h' = arrays h → valid_slice h s → valid_slice h' s.
Proof. intros Ha. unfold valid_slice. by rewrite Ha. Qed.

(** [AppendCol] on a view that wraps no batch panics before it writes. *)
Lemma AppendCol_no_batch h b t pb :
  pbatches h !! b = Some pb →
  (∀ l, pb_Batch pb = Some l → membatches h !! l = None) →
  AppendCol b t h = (Panicked nil_dereference, h).
Proof.
  intros Hpb Hno. unfold AppendCol, bind, deref_projectingBatch. rewrite Hpb.
  unfold coldata.AppendCol, bind, coldata.deref.
  destruct (pb_Batch pb) as [l|]; [|done]. by rewrite (Hno l eq_refl).
Qed.

(** [AppendCol] on a view that wraps the batch [l]. *)
Lemma AppendCol_spec h b t pb l cols :
  pbatches h !! b = Some pb →
  pb_Batch pb = Some l →
  membatches h !! l = Some cols →
  valid_slice h (pb_projection pb) →
  let v := fresh (dom (vecs h)) in
  let x := uint32 (uint32 (Z.of_nat (length (cols ++ [v]))) - 1) in
  ∃ s' a' arrs',
    let h' := MkHeap arrs' (<[v := t]> (vecs h)) (<[l := cols ++ [v]]> (membatches h))
                (<[b := ProjectingBatch (Some l) s']> (pbatches h))
                (operators h) (verbosity h) (logged h) in
    AppendCol b t h = (Ok tt, h') ∧
    sl_ptr s' = Some a' ∧
    (sl_ptr (pb_projection pb) = Some a' ∧ sl_off s' = sl_off (pb_projection pb) ∨
     (a' ∉ dom (arrays h)) ∧ sl_off s' = 0%nat) ∧
    sl_len s' = S (sl_len (pb_projection pb)) ∧
    valid_slice h' s' ∧
    Go.elems h' s' = Go.elems h (pb_projection pb) ++ [x] ∧
    (∀ a0, a0 ≠ a' → arrs' !! a0 = arrays h !! a0) ∧
    dom (arrays h) ⊆ dom arrs'.
Proof.
  intros Hpb HB Hl Hvalid v x.
  set (h1 := MkHeap (arrays h) (<[v := t]> (vecs h)) (<[l := cols ++ [v]]> (membatches h))
               (pbatches h) (operators h) (verbosity h) (logged h)).
  destruct (append_spec h1 (pb_projection pb) x) as
    (s' & h2 & a' & Happ & Hp & Hor & Hlen & Hv2 & Hel & Hfr & Hdom & Hh2).
  { by apply (valid_slice_arrays h). }
  exists s', a', (arrays h2). cbn zeta.
  split.
  { unfold AppendCol, bind, deref_projectingBatch. rewrite Hpb, HB.
    unfold coldata.AppendCol, coldata.Width, bind, coldata.deref. rewrite Hl.
    unfold gets, modify. heap_simpl. rewrite lookup_insert_eq. unfold ret.
    fold v. fold x. fold h1. rewrite Happ. rewrite Hh2. by heap_simpl. }
  split; [done|]. split; [done|]. split; [done|].
  split; [by apply (valid_slice_arrays h2)|].
  split; [by rewrite (elems_arrays h2) by done|].
  done.
Qed.

(** ** The invariant holds throughout the life of the operator *)

Lemma owns_frame h h' s a xs :
  owns h s a xs → arrays h' !! a = arrays h !! a → owns h' s a xs.
Proof.
  intros (Hp & Hoff & Hv & Hel) Ha. split; [done|]. split; [done|]. split.
  - apply (valid_slice_frame h); [|done]. intros a0 Ha0. congruence.
  - by rewrite (elems_frame h h' s a).
Qed.

Lemma owns_dom h s a xs : owns h s a xs → a ∈ dom (arrays h).
Proof. intros (Hp & _ & Hv & _). by eapply valid_slice_dom. Qed.

Lemma owns_new h a xs n :
  arrays h !! a = Some xs → length xs = n → owns h (Slice (Some a) 0 n n) a xs.
Proof.
  intros Ha Hn. split; [done|]. split; [done|]. split.
  - unfold valid_slice. heap_simpl. exists xs. split; [done|]. lia.
  - unfold Go.elems. heap_simpl. rewrite Ha. simpl. rewrite drop_0.
    apply take_ge. lia.
Qed.

Lemma Inv_new h0 input n proj d h1 :
  valid_slice h0 proj →
  projectionIsRedundant n proj h0 = false →
  NewSimpleProjectOp input n proj h0 = (Ok (projectOp d), h1) →
  Inv (dom (arrays h0)) (Go.elems h0 proj) d h1.
Proof.
  intros Hvalid Hred Hnew.
  rewrite (NewSimpleProjectOp_new input n proj h0 Hred Hvalid) in Hnew.
  injection Hnew as <- <-.
  assert (fresh (dom (arrays h0)) ∉ dom (arrays h0)) as Hf by apply is_fresh.
  split; heap_simpl.
  - rewrite dom_insert_L. set_solver.
  - eexists _, (fresh (dom (arrays h0))). split; [apply lookup_insert_eq|].
    split.
    { apply owns_new; heap_simpl; [apply lookup_insert_eq | by apply length_elems]. }
    split; [done|]. split.
    + intros k v Hk. cbn in Hk. by rewrite lookup_empty in Hk.
    + intros k1 k2 v1 v2 pb1 pb2 Hk. cbn in Hk. by rewrite lookup_empty in Hk.
Qed.

Lemma Inv_env ext P d h h' :
  arrays h' = arrays h → pbatches h' = pbatches h → operators h' = operators h →
  Inv ext P d h → Inv ext P d h'.
Proof.
  intros Ha Hpb Hop [Hext (op & a & Hd & Hown & Haext & Hviews & Hsep)].
  split; [by rewrite Ha|].
  exists op, a. rewrite Hop, Hpb. split; [done|].
  split; [apply (owns_frame h); [done | by rewrite Ha]|].
  split; [done|]. split; [|done].
  intros k v Hk. destruct (Hviews k v Hk) as (pb & a' & xs & ? & ? & ? & ? & ?).
  exists pb, a', xs. split_and!; try done.
  apply (owns_frame h); [done | by rewrite Ha].
Qed.

Lemma Inv_Store ext P d h a i x :
  a ∈ ext → Inv ext P d h → Inv ext P d (step d (Store a i x) h).
Proof.
  intros Ha [Hext (op & a0 & Hd & Hown & Haext & Hviews & Hsep)].
  simpl. split; heap_simpl; [by rewrite dom_alter_L|].
  exists op, a0. split; [done|].
  split; [apply (owns_frame h); [done|]; heap_simpl; apply lookup_alter_ne; congruence|].
  split; [done|]. split; [|done].
  intros k v Hk. destruct (Hviews k v Hk) as (pb & a' & xs & ? & ? & ? & ? & ?).
  exists pb, a', xs. split_and!; try done.
  apply (owns_frame h); [done|]. heap_simpl. apply lookup_alter_ne. congruence.
Qed.

Lemma Inv_Pull ext P d h batch :
  Inv ext P d h → Inv ext P d (step d (Pull batch) h).
Proof.
  intros [Hext (op & a & Hd & Hown & Haext & Hviews & Hsep)]. simpl.
  destruct (op_batches op !! batch) as [v|] eqn:Hb.
  - (* hit: the view is only pointed at the batch it is cached under *)
    destruct (Hviews _ _ Hb) as (pb & a' & xs & Hpb & HB & Hown' & Ha'ext & Ha'a).
    rewrite (Next_hit h d op batch v pb Hd Hb Hpb). heap_simpl.
    split; heap_simpl; [done|].
    exists op, a. split; [done|]. split; [by apply (owns_frame h)|].
    split; [done|]. split.
    + intros k v0 Hk. destruct (decide (v0 = v)) as [->|Hne].
      * rewrite lookup_insert_eq.
        destruct (Hviews _ _ Hk) as (pb0 & a0 & xs0 & Hpb0 & HB0 & Hown0 & ? & ?).
        assert (pb0 = pb) as -> by congruence.
        eexists _, a0, xs0. split; [done|]. heap_simpl.
        split; [congruence|]. split; [by apply (owns_frame h)|]. done.
      * rewrite lookup_insert_ne by done.
        destruct (Hviews _ _ Hk) as (pb0 & a0 & xs0 & ? & ? & ? & ? & ?).
        exists pb0, a0, xs0. split_and!; first [done | by apply (owns_frame h)].
    + intros k1 k2 v1 v2 pb1 pb2 Hk1 Hk2 Hv1 Hv2 Hptr.
      assert (∀ v0 pb0, <[v:=ProjectingBatch batch (pb_projection pb)]> (pbatches h) !! v0
                = Some pb0 →
              ∃ pb0', pbatches h !! v0 = Some pb0' ∧
                      pb_projection pb0' = pb_projection pb0) as Hback.
      { intros v0 pb0. destruct (decide (v0 = v)) as [->|Hne].
        - rewrite lookup_insert_eq. intros [= <-]. by exists pb.
        - rewrite lookup_insert_ne by done. intros ?. by exists pb0. }
      destruct (Hback _ _ Hv1) as (pb1' & Hv1' & E1).
      destruct (Hback _ _ Hv2) as (pb2' & Hv2' & E2).
      apply (Hsep k1 k2 v1 v2 pb1' pb2'); try done. by rewrite E1, E2.
  - (* miss: a new view in a new array *)
    destruct Hown as (Hp & Hoff & Hvalid & Hel).
    rewrite (Next_miss h d op batch Hd Hb Hvalid). heap_simpl.
    set (an := fresh (dom (arrays h))). set (vn := fresh (dom (pbatches h))).
    assert (an ∉ dom (arrays h)) as Han by apply is_fresh.
    assert (vn ∉ dom (pbatches h)) as Hvn by apply is_fresh.
    assert (a ∈ dom (arrays h)) as Hadom by (by eapply valid_slice_dom).
    assert (∀ a0, a0 ∈ dom (arrays h) →
              <[an:=Go.elems h (op_projection op)]> (arrays h) !! a0 = arrays h !! a0)
      as Hframe.
    { intros a0 Ha0. apply lookup_insert_ne. intros <-. done. }
    assert (∀ k v, op_batches op !! k = Some v → v ≠ vn) as Hold.
    { intros k v Hk ->. destruct (Hviews _ _ Hk) as (pb & _ & _ & Hpb & _).
      apply Hvn, elem_of_dom. eauto. }
    split; heap_simpl; [rewrite dom_insert_L; set_solver|].
    eexists _, a. split; [apply lookup_insert_eq|]. heap_simpl. cbn [op_projection op_batches].
    split.
    { apply (owns_frame h); [done|]. heap_simpl. by apply Hframe. }
    split; [done|]. split.
    + intros k v. destruct (decide (k = batch)) as [->|Hne].
      * rewrite lookup_insert_eq. intros [= <-]. rewrite lookup_insert_eq.
        eexists _, an, []. split; [done|]. split; [done|]. heap_simpl.
        split.
        { rewrite app_nil_r. apply owns_new; heap_simpl.
          - rewrite lookup_insert_eq. by rewrite Hel.
          - rewrite <- Hel. by apply length_elems. }
        split; [set_solver|]. intros ->. done.
      * rewrite lookup_insert_ne by done. intros Hk.
        destruct (Hviews _ _ Hk) as (pb & a' & xs & Hpb & HB & Hown' & ? & ?).
        rewrite lookup_insert_ne by (symmetry; by eapply Hold).
        exists pb, a', xs. split_and!; try done.
        apply (owns_frame h); [done|]. heap_simpl. apply Hframe. by eapply owns_dom.
    + intros k1 k2 v1 v2 pb1 pb2.
      destruct (decide (k1 = batch)) as [->|Hne1];
        destruct (decide (k2 = batch)) as [->|Hne2]; [done|..].
      * rewrite lookup_insert_eq, lookup_insert_ne by done. intros [= <-] Hk2.
        rewrite lookup_insert_eq. rewrite lookup_insert_ne by (symmetry; by eapply Hold).
        intros [= <-] Hv2. heap_simpl. intros Hptr.
        destruct (Hviews _ _ Hk2) as (pb & a' & xs & Hpb & HB & Hown' & ? & ?).
        assert (pb = pb2) as -> by congruence.
        apply owns_dom in Hown' as Hdom'. destruct Hown' as (Hp' & _).
        exfalso. apply Han. congruence.
      * rewrite lookup_insert_eq, lookup_insert_ne by done. intros Hk1 [= <-].
        rewrite lookup_insert_eq. rewrite lookup_insert_ne by (symmetry; by eapply Hold).
        intros Hv1 [= <-]. heap_simpl. intros Hptr.
        destruct (Hviews _ _ Hk1) as (pb & a' & xs & Hpb & HB & Hown' & ? & ?).
        assert (pb = pb1) as -> by congruence.
        apply owns_dom in Hown' as Hdom'. destruct Hown' as (Hp' & _).
        exfalso. apply Han. congruence.
      * rewrite !lookup_insert_ne by done. intros Hk1 Hk2.
        rewrite !lookup_insert_ne by (symmetry; by eapply Hold).
        by apply Hsep.
Qed.

Lemma Inv_Append ext P d h v t :
  view_of d h v → Inv ext P d h → Inv ext P d (step d (Append v t) h).
Proof.
  intros (op0 & k & Hd0 & Hkv) HInv.
  pose proof HInv as [Hext (op & a & Hd & Hown & Haext & Hviews & Hsep)].
  assert (op0 = op) as -> by congruence. simpl.
  destruct (Hviews _ _ Hkv) as (pb & a' & xs & Hpb & HB & Hown' & Ha'ext & Ha'a).
  assert (∀ k0, op_batches op !! k0 = Some v → k0 = k) as Hinj.
  { intros k0 Hk0. destruct (Hviews _ _ Hk0) as (pb0 & _ & _ & Hpb0 & HB0 & _).
    congruence. }
  assert ((∃ l cols, k = Some l ∧ membatches h !! l = Some cols) ∨
          (∀ l, pb_Batch pb = Some l → membatches h !! l = None)) as [Hyes|Hno].
  { destruct k as [l|]; [|right; congruence].
    destruct (membatches h !! l) as [cols|] eqn:E; [left; eauto|].
    right. congruence. }
  2:{ by rewrite (AppendCol_no_batch h v t pb Hpb Hno). }
  destruct Hyes as (l & cols & -> & Hl).
  destruct Hown' as (Hp' & Hoff' & Hvalid' & Hel').
  destruct (AppendCol_spec h v t pb l cols Hpb HB Hl Hvalid')
    as (s' & an & arrs' & Hcall & Hps' & Hor & Hlen & Hvs' & Hels' & Hfr & Hdom).
  cbn zeta in Hcall, Hvs', Hels'. rewrite Hcall. cbn [snd].
  assert (a ∈ dom (arrays h)) as Hadom by (by eapply owns_dom).
  assert (a' ∈ dom (arrays h)) as Ha'dom by (by eapply valid_slice_dom).
  assert (an ≠ a) as Hana.
  { destruct Hor as [[Hq _]|[Hq _]]; [congruence | by intros ->]. }
  assert (an ∉ ext) as Hanext.
  { destruct Hor as [[Hq _]|[Hq _]]; [congruence | set_solver]. }
  split; heap_simpl; [by transitivity (dom (arrays h))|].
  exists op, a. split; [done|].
  split; [apply (owns_frame h); [done|]; heap_simpl; by apply Hfr|].
  split; [done|].
  assert (∀ k0 v0 pb0 a0 xs0, op_batches op !! k0 = Some v0 → v0 ≠ v →
            pbatches h !! v0 = Some pb0 → owns h (pb_projection pb0) a0 xs0 → a0 ≠ an)
    as Hother.
  { intros k0 v0 pb0 a0 xs0 Hk0 Hne Hpb0 Hown0 ->.
    destruct Hor as [[Hq _]|[Hq _]].
    - destruct Hown0 as (Hp0 & _).
      assert (k0 = Some l) as -> by (apply (Hsep _ _ v0 v pb0 pb); congruence).
      congruence.
    - apply Hq. by eapply owns_dom. }
  split.
  - intros k0 v0 Hk0. destruct (decide (v0 = v)) as [->|Hne].
    + rewrite lookup_insert_eq. rewrite (Hinj _ Hk0).
      eexists _, an, (xs ++ [_]). split; [done|]. split; [done|]. heap_simpl.
      split; [|done].
      split; [done|]. split; [destruct Hor as [[_ Hq]|[_ Hq]]; congruence|].
      split; [done|]. rewrite Hels', Hel'. by rewrite <- app_assoc.
    + rewrite lookup_insert_ne by done.
      destruct (Hviews _ _ Hk0) as (pb0 & a0 & xs0 & Hpb0 & HB0 & Hown0 & ? & ?).
      exists pb0, a0, xs0. split_and!; try done.
      apply (owns_frame h); [done|]. heap_simpl. apply Hfr. by eapply Hother.
  - intros k1 k2 v1 v2 pb1 pb2 Hk1 Hk2.
    destruct (decide (v1 = v)) as [->|Hne1]; destruct (decide (v2 = v)) as [->|Hne2].
    + intros _ _ _. rewrite (Hinj _ Hk1), (Hinj _ Hk2). done.
    + rewrite lookup_insert_eq, lookup_insert_ne by done. intros [= <-] Hv2. heap_simpl.
      intros Hptr. exfalso.
      destruct (Hviews _ _ Hk2) as (pb0 & a0 & xs0 & Hpb0 & HB0 & Hown0 & ? & ?).
      assert (pb0 = pb2) as -> by congruence.
      apply (Hother _ _ _ _ _ Hk2 Hne2 Hpb0 Hown0). destruct Hown0 as (Hp0 & _).
      congruence.
    + rewrite lookup_insert_eq, lookup_insert_ne by done. intros Hv1 [= <-]. heap_simpl.
      intros Hptr. exfalso.
      destruct (Hviews _ _ Hk1) as (pb0 & a0 & xs0 & Hpb0 & HB0 & Hown0 & ? & ?).
      assert (pb0 = pb1) as -> by congruence.
      apply (Hother _ _ _ _ _ Hk1 Hne1 Hpb0 Hown0). destruct Hown0 as (Hp0 & _).
      congruence.
    + rewrite !lookup_insert_ne by done. by apply Hsep.
Qed.

Lemma Inv_step ext P d h e :
  admissible ext d h e → Inv ext P d h → Inv ext P d (step d e h).
Proof.
  destruct e as [batch|v t|vs bs|level|a i x]; simpl.
  - intros _. apply Inv_Pull.
  - apply Inv_Append.
  - intros _. by apply Inv_env.
  - intros _. by apply Inv_env.
  - apply Inv_Store.
Qed.

Lemma reachable_Inv h0 input n proj d h :
  reachable h0 input n proj d h → Inv (dom (arrays h0)) (Go.elems h0 proj) d h.
Proof.
  induction 1 as [h1 Hvalid Hred Hnew|h e Hreach IH Hadm].
  - by eapply Inv_new.
  - by apply Inv_step.
Qed.

Lemma reachable_run h0 input n proj d h es :
  reachable h0 input n proj d h →
  admissible_trace (dom (arrays h0)) d h es →
  reachable h0 input n proj d (run d es h).
Proof.
  revert h. induction es as [|e es IH]; intros h Hreach Hadm; [done|].
  destruct Hadm as [He Hes]. simpl. apply IH; [|done]. by apply reachable_step.
Qed.

(** ** Pulls in the life of the operator *)

(** A hit finds the view already pointed at the batch: the stores stay as
    they are. *)
Lemma Next_hit_Inv ext P d h op batch v :
  Inv ext P d h →
  operators h !! d = Some op →
  op_batches op !! batch = Some v →
  Next d batch h = (Ok v, h).
Proof.
  intros [_ (op0 & a & Hd & _ & _ & Hviews & _)] Hop Hb.
  assert (op0 = op) as -> by congruence.
  destruct (Hviews _ _ Hb) as (pb & a' & xs & Hpb & HB & _).
  rewrite (Next_hit h d op batch v pb Hop Hb Hpb). f_equal.
  destruct h, pb. heap_simpl. subst. f_equal. by apply insert_id.
Qed.

Lemma Next_miss_Inv ext P d h op batch :
  Inv ext P d h →
  operators h !! d = Some op →
  op_batches op !! batch = None →
  let a := fresh (dom (arrays h)) in
  let v := fresh (dom (pbatches h)) in
  let n := sl_len (op_projection op) in
  let batches := <[batch := v]> (op_batches op) in
  let size := Z.of_nat (size batches) in
  Next d batch h =
    (Ok v,
     MkHeap (<[a := Go.elems h (op_projection op)]> (arrays h)) (vecs h) (membatches h)
            (<[v := ProjectingBatch batch (Slice (Some a) 0 n n)]> (pbatches h))
            (<[d := SimpleProjectOp (op_input op) (op_projection op) batches
                      (threshold_after_miss op size)]> (operators h))
            (verbosity h) (logged_after_miss op size h)).
Proof.
  intros [_ (op0 & a0 & Hd & Hown & _)] Hop Hb.
  assert (op0 = op) as -> by congruence.
  destruct Hown as (_ & _ & Hvalid & _). by apply Next_miss.
Qed.

(** Every pull returns a view, cached under the batch it was pulled for. *)
Lemma Next_returns ext P d h batch :
  Inv ext P d h →
  ∃ o op', Next d batch h = (Ok o, step d (Pull batch) h) ∧
           operators (step d (Pull batch) h) !! d = Some op' ∧
           op_batches op' !! batch = Some o.
Proof.
  intros HInv. pose proof HInv as [_ (op & a & Hd & _)].
  destruct (op_batches op !! batch) as [v|] eqn:Hb.
  - exists v, op. simpl. rewrite (Next_hit_Inv _ _ _ _ _ _ _ HInv Hd Hb). done.
  - eexists _, _. simpl. rewrite (Next_miss_Inv _ _ _ _ _ _ HInv Hd Hb). heap_simpl.
    split; [done|]. split; [apply lookup_insert_eq|]. cbn. apply lookup_insert_eq.
Qed.

(** [ColVec] of a view at a position of its projection list. *)
Lemma ColVec_at h b pb i x :
  pbatches h !! b = Some pb →
  Go.elems h (pb_projection pb) !! i = Some x →
  ColVec b (Z.of_nat i) h = coldata.ColVec (pb_Batch pb) x h.
Proof.
  intros Hpb Hx. unfold ColVec, bind, deref_projectingBatch. rewrite Hpb.
  unfold Go.index, Go.len. rewrite Nat2Z.id, Hx.
  apply lookup_lt_Some in Hx as Hi.
  assert (i < sl_len (pb_projection pb))%nat as Hlen.
  { unfold Go.elems in Hi. destruct (sl_ptr (pb_projection pb)); simpl in Hi; [|lia].
    rewrite length_take in Hi. lia. }
  destruct (0 <=? Z.of_nat i) eqn:E1; [|lia].
  destruct (Z.of_nat i <? Z.of_nat (sl_len (pb_projection pb))) eqn:E2; [done|lia].
Qed.

Lemma coldata_ColVec_at h l cols x c :
  membatches h !! l = Some cols → 0 ≤ x → cols !! Z.to_nat x = Some c →
  coldata.ColVec (Some l) x h = (Ok c, h).
Proof.
  intros Hl Hx Hc. unfold coldata.ColVec, bind, coldata.deref. rewrite Hl, Hc.
  apply lookup_lt_Some in Hc.
  destruct (0 <=? x) eqn:E1; [|lia].
  destruct (x <? Z.of_nat (length cols)) eqn:E2; [done|lia].
Qed.

(** ** Order, repointing, width and the unsupported call *)

(** C1 (order and selection).  In the life of an operator built from the
    projection list [P], every pull returns a view [o], and for every
    position [i] of [P], [o.ColVec(i)] is what [ColVec(P[i])] of the batch
    just pulled from the upstream is, in the stores as the pull left
    them: the same vector when [P[i]] is a column of that batch, the same
    panic otherwise.  Positions that carry the same index give the same
    vector. *)
Theorem C1_order_selection h0 input n proj d h batch :
  reachable h0 input n proj d h →
  ∃ o, fst (Next d batch h) = Ok o ∧
    let h' := snd (Next d batch h) in
    (∀ i x, Go.elems h0 proj !! i = Some x →
       fst (ColVec o (Z.of_nat i) h') = fst (coldata.ColVec batch x h')) ∧
    (∀ i x l cols c, Go.elems h0 proj !! i = Some x →
       batch = Some l → membatches h' !! l = Some cols →
       0 ≤ x → cols !! Z.to_nat x = Some c →
       fst (ColVec o (Z.of_nat i) h') = Ok c) ∧
    (∀ i j x, Go.elems h0 proj !! i = Some x → Go.elems h0 proj !! j = Some x →
       fst (ColVec o (Z.of_nat i) h') = fst (ColVec o (Z.of_nat j) h')).
Proof.
  intros Hreach. apply reachable_Inv in Hreach as HInv.
  destruct (Next_returns _ _ _ _ batch HInv) as (o & op' & Hnext & Hd' & Ho).
  pose proof (Inv_Pull _ _ _ _ batch HInv) as [_ (op & a & Hd & _ & _ & Hviews & _)].
  assert (op = op') as -> by congruence.
  destruct (Hviews _ _ Ho) as (pb & a' & xs & Hpb & HB & Hown & _).
  destruct Hown as (_ & _ & _ & Hel).
  exists o. rewrite Hnext. cbn [fst snd]. split; [done|].
  assert (∀ i x, Go.elems h0 proj !! i = Some x →
            ColVec o (Z.of_nat i) (step d (Pull batch) h) =
            coldata.ColVec batch x (step d (Pull batch) h)) as Hcol.
  { intros i x Hi. rewrite (ColVec_at _ _ pb i x Hpb); [by rewrite HB|].
    rewrite Hel. by apply lookup_app_l_Some. }
  split; [intros i x Hi; by rewrite (Hcol i x Hi)|]. split.
  - intros i x l cols c Hi -> Hl Hx Hc. rewrite (Hcol i x Hi).
    by rewrite (coldata_ColVec_at _ l cols x c).
  - intros i j x Hi Hj. by rewrite (Hcol i x Hi), (Hcol j x Hj).
Qed.

(** C4 (repointing).  Every pull leaves the view it returns wrapping
    exactly the batch just pulled from the upstream; when that batch was
    in the cache already, the projection list of its view (slice header
    and elements, with whatever [AppendCol] added earlier) is what it was
    before the pull. *)
Theorem C4_repoint h0 input n proj d h batch :
  reachable h0 input n proj d h →
  ∃ o pb', fst (Next d batch h) = Ok o ∧
    let h' := snd (Next d batch h) in
    pbatches h' !! o = Some pb' ∧ pb_Batch pb' = batch ∧
    (∀ op v pb, operators h !! d = Some op → op_batches op !! batch = Some v →
       pbatches h !! v = Some pb →
       o = v ∧ pb_projection pb' = pb_projection pb ∧
       Go.elems h' (pb_projection pb') = Go.elems h (pb_projection pb)).
Proof.
  intros Hreach. apply reachable_Inv in Hreach as HInv.
  destruct (Next_returns _ _ _ _ batch HInv) as (o & op' & Hnext & Hd' & Ho).
  pose proof (Inv_Pull _ _ _ _ batch HInv) as [_ (op1 & a & Hd1 & _ & _ & Hviews & _)].
  assert (op1 = op') as -> by congruence.
  destruct (Hviews _ _ Ho) as (pb' & a' & xs & Hpb' & HB' & _).
  exists o, pb'. rewrite Hnext. cbn [fst snd]. split; [done|].
  split; [done|]. split; [done|].
  intros op v pb Hd Hb Hpb.
  simpl in Hnext, Hpb'. rewrite (Next_hit_Inv _ _ _ _ _ _ _ HInv Hd Hb) in Hnext, Hpb'.
  cbn [snd] in Hpb'. injection Hnext as ->.
  assert (pb' = pb) as -> by congruence.
  simpl. by rewrite (Next_hit_Inv _ _ _ _ _ _ _ HInv Hd Hb).
Qed.

(** C5 (unsupported call).  [ColVecs] on a view fails with the internal
    error, in every state of the stores and for every receiver; it never
    returns a list of vectors. *)
Theorem C5_ColVecs_fails (b : loc) (h : Heap) :
  ColVecs b h =
    (Panicked (InternalError "projectingBatch doesn't support ColVecs()"), h) ∧
  ∀ vs, fst (ColVecs b h) ≠ Ok vs.
Proof. split; [reflexivity | intros vs; discriminate]. Qed.

(** C8 (width).  The width of a view is the length of its own projection
    list, whatever batch it wraps and whatever the width of that batch. *)
Theorem C8_Width h b batch (P : slice) :
  pbatches h !! b = Some (ProjectingBatch batch P) →
  Width b h = (Ok (Go.len P), h) ∧
  (valid_slice h P → Go.len P = Z.of_nat (length (Go.elems h P))).
Proof.
  intros Hpb. split.
  - unfold Width, bind, deref_projectingBatch. by rewrite Hpb.
  - intros Hv. unfold Go.len. by rewrite length_elems.
Qed.

(** C10 (no columns).  With [numInputCols == 0] and an empty projection
    list, nil or not, [NewSimpleProjectOp] returns [input] itself and
    allocates nothing. *)
Theorem C10_zero_columns input h ptr off cap :
  NewSimpleProjectOp input 0 (Slice ptr off 0 cap) h = (Ok input, h).
Proof.
  apply NewSimpleProjectOp_elided. unfold projectionIsRedundant, Go.len. heap_simpl.
  rewrite decide_True by done. unfold Go.elems. heap_simpl.
  destruct ptr; by rewrite ?take_0.
Qed.

Lemma Inv_run ext P d h es :
  Inv ext P d h → admissible_trace ext d h es → Inv ext P d (run d es h).
Proof.
  revert h. induction es as [|e es IH]; intros h HInv Hadm; [done|].
  destruct Hadm as [He Hes]. simpl. apply IH; [|done]. by apply Inv_step.
Qed.

(** [AppendCol] through a view leaves the operator and the log alone. *)
Lemma Append_operators ext P d h v t :
  Inv ext P d h → view_of d h v →
  operators (step d (Append v t) h) = operators h ∧
  logged (step d (Append v t) h) = logged h.
Proof.
  intros [_ (op & a & Hd & _ & _ & Hviews & _)] (op0 & k & Hd0 & Hkv).
  assert (op0 = op) as -> by congruence. simpl.
  destruct (Hviews _ _ Hkv) as (pb & a' & xs & Hpb & HB & Hown' & _).
  assert ((∃ l cols, k = Some l ∧ membatches h !! l = Some cols) ∨
          (∀ l, pb_Batch pb = Some l → membatches h !! l = None)) as [Hyes|Hno].
  { destruct k as [l|]; [|right; congruence].
    destruct (membatches h !! l) as [cols|] eqn:E; [left; eauto|].
    right. congruence. }
  2:{ by rewrite (AppendCol_no_batch h v t pb Hpb Hno). }
  destruct Hyes as (l & cols & -> & Hl).
  destruct Hown' as (_ & _ & Hvalid' & _).
  destruct (AppendCol_spec h v t pb l cols Hpb HB Hl Hvalid')
    as (s' & an & arrs' & Hcall & _).
  cbn zeta in Hcall. by rewrite Hcall.
Qed.

(** No event takes an entry out of the cache or changes one. *)
Lemma cache_step ext P d h e op :
  Inv ext P d h → admissible ext d h e →
  operators h !! d = Some op →
  ∃ op', operators (step d e h) !! d = Some op' ∧ op_batches op ⊆ op_batches op'.
Proof.
  intros HInv Hadm Hd. destruct e as [batch|v t|vs bs|level|a i x].
  - destruct (op_batches op !! batch) as [v|] eqn:Hb.
    + exists op. simpl. by rewrite (Next_hit_Inv _ _ _ _ _ _ _ HInv Hd Hb).
    + eexists. simpl. rewrite (Next_miss_Inv _ _ _ _ _ _ HInv Hd Hb). heap_simpl.
      split; [apply lookup_insert_eq|]. cbn. by apply insert_subseteq.
  - exists op. destruct (Append_operators _ _ _ _ v t HInv Hadm) as [-> _]. done.
  - by exists op.
  - by exists op.
  - by exists op.
Qed.

Lemma cache_run ext P d h es op :
  Inv ext P d h → admissible_trace ext d h es →
  operators h !! d = Some op →
  ∃ op', operators (run d es h) !! d = Some op' ∧ op_batches op ⊆ op_batches op'.
Proof.
  revert h op. induction es as [|e es IH]; intros h op HInv Hadm Hd.
  - by exists op.
  - destruct Hadm as [He Hes]. simpl.
    destruct (cache_step _ _ _ _ e op HInv He Hd) as (op1 & Hd1 & Hsub1).
    destruct (IH _ op1 (Inv_step _ _ _ _ _ He HInv) Hes Hd1) as (op2 & Hd2 & Hsub2).
    exists op2. split; [done|]. by transitivity (op_batches op1).
Qed.

(** C2 (reuse).  In the life of an operator, a pull for a batch that is
    in the cache returns the cached view and leaves the stores as they
    are (nothing is allocated); a pull for a batch that is not allocates
    a new view, enters it in the cache, and leaves every view cached
    before, and the list it holds, as they were.  Different batches have
    different views; no event takes an entry out of the cache or changes
    one; whatever happens after a pull, a later pull for the same batch
    returns the same view and allocates nothing. *)
Theorem C2_reuse h0 input n proj d h batch :
  reachable h0 input n proj d h →
  ∃ op o op',
    operators h !! d = Some op ∧
    Next d batch h = (Ok o, step d (Pull batch) h) ∧
    operators (step d (Pull batch) h) !! d = Some op' ∧
    (∀ v, op_batches op !! batch = Some v →
       o = v ∧ step d (Pull batch) h = h) ∧
    (op_batches op !! batch = None →
       (o ∉ dom (pbatches h)) ∧
       dom (pbatches (step d (Pull batch) h)) = {[o]} ∪ dom (pbatches h) ∧
       op_batches op' = <[batch := o]> (op_batches op) ∧
       ∀ k v, op_batches op !! k = Some v →
         pbatches (step d (Pull batch) h) !! v = pbatches h !! v ∧
         ∀ pb, pbatches h !! v = Some pb →
           Go.elems (step d (Pull batch) h) (pb_projection pb) =
           Go.elems h (pb_projection pb)) ∧
    (∀ k1 k2 v, op_batches op !! k1 = Some v → op_batches op !! k2 = Some v → k1 = k2) ∧
    (∀ es, admissible_trace (dom (arrays h0)) d h es →
       ∃ op'', operators (run d es h) !! d = Some op'' ∧
               op_batches op ⊆ op_batches op'') ∧
    (∀ es, admissible_trace (dom (arrays h0)) d (step d (Pull batch) h) es →
       Next d batch (run d es (step d (Pull batch) h)) =
         (Ok o, run d es (step d (Pull batch) h))).
Proof.
  intros Hreach. apply reachable_Inv in Hreach as HInv.
  destruct (Next_returns _ _ _ _ batch HInv) as (o & op' & Hnext & Hd' & Ho).
  pose proof HInv as [_ (op & a & Hd & Hown & _ & Hviews & _)].
  exists op, o, op'. split; [done|]. split; [done|]. split; [done|].
  split; [|split; [|split; [|split]]].
  - intros v Hb. pose proof (Next_hit_Inv _ _ _ _ _ _ _ HInv Hd Hb) as Hhit.
    simpl. rewrite Hhit in Hnext |- *. by injection Hnext as <-.
  - intros Hb. pose proof (Next_miss_Inv _ _ _ _ _ _ HInv Hd Hb) as Hmiss.
    cbn zeta in Hmiss. simpl in Hd', Hnext |- *. rewrite Hmiss in Hd', Hnext |- *.
    heap_simpl. injection Hnext as <-.
    rewrite lookup_insert_eq in Hd'. injection Hd' as <-.
    split; [apply is_fresh|]. split; [apply dom_insert_L|]. split; [done|].
    intros k v Hk. destruct (Hviews _ _ Hk) as (pb & a' & xs & Hpb & _ & Hown' & _).
    assert (v ≠ fresh (dom (pbatches h))) as Hv.
    { intros ->. apply (is_fresh (dom (pbatches h))), elem_of_dom. eauto. }
    split; [by apply lookup_insert_ne|].
    intros pb0 Hpb0. assert (pb0 = pb) as -> by congruence.
    destruct Hown' as (Hp' & _ & Hvalid' & _).
    apply (elems_frame _ _ _ a' Hp'). heap_simpl. apply lookup_insert_ne.
    intros Heq. apply (is_fresh (dom (arrays h))). rewrite Heq.
    by eapply valid_slice_dom.
  - intros k1 k2 v Hk1 Hk2.
    destruct (Hviews _ _ Hk1) as (pb1 & _ & _ & Hpb1 & HB1 & _).
    destruct (Hviews _ _ Hk2) as (pb2 & _ & _ & Hpb2 & HB2 & _). congruence.
  - intros es Hes. by eapply cache_run.
  - intros es Hes.
    pose proof (Inv_Pull _ _ _ _ batch HInv) as HInv'.
    destruct (cache_run _ _ _ _ es op' HInv' Hes Hd') as (op2 & Hd2 & Hsub).
    apply (Next_hit_Inv _ _ _ _ op2 _ _ (Inv_run _ _ _ _ _ HInv' Hes) Hd2).
    by eapply lookup_weaken.
Qed.

(** ** The logging threshold *)

Lemma threshold_S k : threshold (S k) = 2 * threshold k.
Proof.
  unfold threshold. rewrite Nat2Z.inj_succ, Z.pow_succ_r by lia. lia.
Qed.

Lemma threshold_pos k : 0 < threshold k.
Proof. unfold threshold. assert (0 < 2 ^ Z.of_nat k) by (apply Z.pow_pos_nonneg; lia). lia. Qed.

Lemma threshold_le k : (k ≤ 55)%nat → threshold k ≤ 2 ^ 62.
Proof.
  intros Hk. unfold threshold.
  assert (2 ^ Z.of_nat k ≤ 2 ^ 55) by (apply Z.pow_le_mono_r; lia).
  change (2 ^ 62) with (128 * 2 ^ 55). lia.
Qed.

Lemma int_threshold k : (k ≤ 55)%nat → int (threshold k) = threshold k.
Proof.
  intros Hk. apply int_small. pose proof (threshold_le k Hk). pose proof (threshold_pos k).
  lia.
Qed.

Lemma int_threshold_56 : int (threshold 56) = - 2 ^ 63.
Proof. reflexivity. Qed.


#[local] Instance threshold_inj : Inj (=) (=) threshold.
Proof.
  intros j k Hjk. unfold threshold in Hjk.
  apply Nat2Z.inj, (Z.pow_inj_r 2); lia.
Qed.





(** ** Stores into the caller's arrays *)

Lemma agree_Store ext d h a i x : a ∈ ext → agree ext (step d (Store a i x) h) h.
Proof.
  intros Ha. simpl. split_and!; heap_simpl; try done; [apply dom_alter_L|].
  intros a0 Ha0. apply lookup_alter_ne. congruence.
Qed.

Lemma owns_agree ext h h' s a xs :
  agree ext h' h → a ∉ ext → owns h s a xs → owns h' s a xs.
Proof. intros (_ & Hag & _) Ha Hown. apply (owns_frame h); [done | by apply Hag]. Qed.

Lemma Inv_agree ext P d h h' : agree ext h' h → Inv ext P d h → Inv ext P d h'.
Proof.
  intros Hag [Hext (op & a & Hd & Hown & Haext & Hviews & Hsep)].
  pose proof Hag as (Hdom & Harr & _ & _ & Hpb & Hop & _).
  split; [by rewrite Hdom|]. exists op, a. rewrite Hop, Hpb.
  split; [done|]. split; [by apply (owns_agree ext h)|]. split; [done|].
  split; [|done]. intros k v Hk.
  destruct (Hviews _ _ Hk) as (pb & a' & xs & ? & ? & ? & ? & ?).
  exists pb, a', xs. split_and!; try done. by apply (owns_agree ext h).
Qed.

Lemma append_agree ext h h' s x :
  agree ext h' h → (∀ a, sl_ptr s = Some a → a ∉ ext) →
  fst (Go.append s x h') = fst (Go.append s x h) ∧
  agree ext (snd (Go.append s x h')) (snd (Go.append s x h)).
Proof.
  intros (Hdom & Harr & Hv & Hm & Hpb & Hop & Hvb & Hlg) Hs.
  assert (Go.elems h' s = Go.elems h s) as Hel.
  { destruct (sl_ptr s) as [a|] eqn:Hp; [|by rewrite !elems_nil].
    apply (elems_frame _ _ _ a Hp). apply Harr. by apply Hs. }
  unfold Go.append. rewrite Hdom, Hel.
  destruct (sl_ptr s) as [a|] eqn:Hp; [destruct (sl_len s <? sl_cap s)%nat|];
    (split; [done|]); unfold agree; heap_simpl; split_and!; try done.
  - by rewrite !dom_alter_L.
  - intros a0 Ha0. rewrite !lookup_alter. case_decide; [|by apply Harr].
    rewrite (Harr a) by (by apply Hs). done.
  - by rewrite !dom_insert_L, Hdom.
  - intros a0 Ha0. rewrite !lookup_insert. case_decide; [done | by apply Harr].
  - by rewrite !dom_insert_L, Hdom.
  - intros a0 Ha0. rewrite !lookup_insert. case_decide; [done | by apply Harr].
Qed.

Lemma AppendCol_agree ext h h' v t :
  agree ext h' h →
  (∀ pb a, pbatches h !! v = Some pb → sl_ptr (pb_projection pb) = Some a → a ∉ ext) →
  agree ext (snd (AppendCol v t h')) (snd (AppendCol v t h)).
Proof.
  intros Hag Hv. pose proof Hag as (Hdom & Harr & Hve & Hme & Hpb & Hop & Hvb & Hlg).
  unfold AppendCol, bind, deref_projectingBatch. rewrite Hpb.
  destruct (pbatches h !! v) as [pb|] eqn:Hpbv; [|done].
  unfold coldata.AppendCol, coldata.Width, bind, coldata.deref.
  destruct (pb_Batch pb) as [l|]; [|done]. rewrite Hme.
  destruct (membatches h !! l) as [cols|] eqn:Hl; [|done].
  unfold gets, modify, ret. heap_simpl. rewrite !lookup_insert_eq, Hve.
  set (x := uint32 _).
  set (h1' := MkHeap (arrays h') _ _ _ _ _ _). set (h1 := MkHeap (arrays h) _ _ _ _ _ _).
  assert (agree ext h1' h1) as Hag1.
  { subst h1 h1'. unfold agree. heap_simpl. split_and!; first [done | congruence]. }
  destruct (append_agree ext h1 h1' (pb_projection pb) x Hag1) as [Hfst Hag2].
  { intros a. by apply Hv. }
  destruct (Go.append (pb_projection pb) x h1') as [r' h2'].
  destruct (Go.append (pb_projection pb) x h1) as [r h2].
  cbn [fst snd] in Hfst, Hag2. subst r'. destruct r as [s'|p]; [|done].
  destruct Hag2 as (? & ? & ? & ? & ? & ? & ? & ?).
  unfold agree. heap_simpl. split_and!; first [done | congruence].
Qed.

Lemma Next_agree ext P d h h' batch :
  Inv ext P d h → agree ext h' h →
  fst (Next d batch h') = fst (Next d batch h) ∧
  agree ext (snd (Next d batch h')) (snd (Next d batch h)).
Proof.
  intros HInv Hag. pose proof (Inv_agree _ _ _ _ _ Hag HInv) as HInv'.
  pose proof HInv as [_ (op & a & Hd & Hown & Haext & _)].
  pose proof Hag as (Hdom & Harr & Hve & Hme & Hpb & Hop & Hvb & Hlg).
  assert (operators h' !! d = Some op) as Hd' by (by rewrite Hop).
  destruct (op_batches op !! batch) as [v|] eqn:Hb.
  - rewrite (Next_hit_Inv _ _ _ _ _ _ _ HInv Hd Hb).
    by rewrite (Next_hit_Inv _ _ _ _ _ _ _ HInv' Hd' Hb).
  - rewrite (Next_miss_Inv _ _ _ _ _ _ HInv Hd Hb).
    rewrite (Next_miss_Inv _ _ _ _ _ _ HInv' Hd' Hb).
    cbn [fst snd]. rewrite Hpb. split; [done|].
    assert (Go.elems h' (op_projection op) = Go.elems h (op_projection op)) as Hel.
    { destruct Hown as (Hp & _). apply (elems_frame _ _ _ a Hp). by apply Harr. }
    unfold agree, logged_after_miss. heap_simpl. rewrite Hdom, Hel, Hvb, Hlg, Hop.
    split_and!; try done.
    + by rewrite !dom_insert_L, Hdom.
    + intros a0 Ha0. rewrite !lookup_insert. case_decide; [done | by apply Harr].
Qed.

Lemma step_agree ext P d h h' e :
  Inv ext P d h → agree ext h' h → admissible ext d h e →
  agree ext (step d e h') (step d e h).
Proof.
  intros HInv Hag Hadm.
  destruct e as [batch|v t|vs bs|level|a i x]; simpl.
  - by apply (Next_agree ext P).
  - apply AppendCol_agree; [done|].
    destruct Hadm as (op & k & Hd & Hk).
    destruct HInv as [_ (op0 & a0 & Hd0 & _ & _ & Hviews & _)].
    assert (op0 = op) as -> by congruence.
    destruct (Hviews _ _ Hk) as (pb & a' & xs & Hpb & _ & (Hp & _) & Ha' & _).
    intros pb1 a1 Hpb1 Hp1. congruence.
  - destruct Hag as (? & ? & ? & ? & ? & ? & ? & ?).
    unfold agree. heap_simpl. split_and!; done.
  - destruct Hag as (? & ? & ? & ? & ? & ? & ? & ?).
    unfold agree. heap_simpl. split_and!; done.
  - destruct Hag as (Hdom & Harr & ? & ? & ? & ? & ? & ?).
    unfold agree. heap_simpl. split_and!; try done.
    + by rewrite !dom_alter_L.
    + intros a0 Ha0. rewrite !lookup_alter_ne by congruence. by apply Harr.
Qed.

Lemma admissible_agree ext d h h' e :
  agree ext h' h → admissible ext d h e → admissible ext d h' e.
Proof.
  intros (_ & _ & _ & _ & _ & Hop & _). destruct e; simpl; try done.
  unfold view_of. by rewrite Hop.
Qed.

Lemma run_agree ext P d h h' es :
  Inv ext P d h → agree ext h' h → admissible_trace ext d h es →
  agree ext (run d es h') (run d es h) ∧ admissible_trace ext d h' es.
Proof.
  revert h h'. induction es as [|e es IH]; intros h h' HInv Hag Hadm; [done|].
  destruct Hadm as [He Hes]. simpl.
  pose proof (step_agree _ _ _ _ _ _ HInv Hag He) as Hag1.
  destruct (IH _ _ (Inv_step _ _ _ _ _ He HInv) Hag1 Hes) as [Hag2 Hadm2].
  split; [done|]. split; [by apply (admissible_agree ext d h)|done].
Qed.

Lemma ColVec_agree ext P d h h' v i :
  Inv ext P d h → agree ext h' h → view_of d h v →
  fst (ColVec v i h') = fst (ColVec v i h).
Proof.
  intros [_ (op & a & Hd & _ & _ & Hviews & _)] (_ & Harr & _ & Hme & Hpb & _)
    (op0 & k & Hd0 & Hk).
  assert (op0 = op) as -> by congruence.
  destruct (Hviews _ _ Hk) as (pb & a' & xs & Hpbv & _ & (Hp & _) & Ha' & _).
  unfold ColVec, bind, deref_projectingBatch. rewrite Hpb, Hpbv.
  unfold Go.index.
  rewrite (elems_frame h h' _ a' Hp) by (by apply Harr).
  destruct ((0 <=? i) && (i <? Go.len (pb_projection pb))); [|done].
  destruct (Go.elems h (pb_projection pb) !! Z.to_nat i) as [x|]; [|done].
  unfold coldata.ColVec, bind, coldata.deref.
  destruct (pb_Batch pb) as [l|]; [|done]. rewrite Hme.
  destruct (membatches h !! l) as [cols|]; [|done].
  destruct ((0 <=? x) && (x <? Z.of_nat (length cols))); [|done].
  by destruct (cols !! Z.to_nat x).
Qed.

(** C9 (defensive copy).  Let the caller of [NewSimpleProjectOp]
    overwrite, at any moment in the life of the operator and in any way,
    the arrays that existed when it called (its projection buffer among
    them): [hw] is the state [h] after such stores.  Whatever happens
    later, the operator's projection list sits in an array of its own
    and still holds what the buffer held at the call; so does the head of
    the list of every view, in yet another array; and every later pull
    and every later [ColVec] on a view returns what it returns without
    those stores. *)
Theorem C9_defensive_copy h0 input n proj d h hw es :
  reachable h0 input n proj d h →
  agree (dom (arrays h0)) hw h →
  admissible_trace (dom (arrays h0)) d h es →
  let P := Go.elems h0 proj in
  let h1 := run d es h in
  let hw1 := run d es hw in
  (∃ op a,
     operators hw1 !! d = Some op ∧
     sl_ptr (op_projection op) = Some a ∧ (a ∉ dom (arrays h0)) ∧
     Go.elems hw1 (op_projection op) = P ∧
     ∀ k v, op_batches op !! k = Some v →
       ∃ pb a', pbatches hw1 !! v = Some pb ∧
                sl_ptr (pb_projection pb) = Some a' ∧
                (a' ∉ dom (arrays h0)) ∧ a' ≠ a ∧
                take (length P) (Go.elems hw1 (pb_projection pb)) = P) ∧
  agree (dom (arrays h0)) hw1 h1 ∧
  (∀ batch, fst (Next d batch hw1) = fst (Next d batch h1)) ∧
  (∀ v i, view_of d h1 v → fst (ColVec v i hw1) = fst (ColVec v i h1)).
Proof.
  intros Hreach Hag Hes P h1 hw1. apply reachable_Inv in Hreach as HInv. fold P in HInv.
  destruct (run_agree _ _ _ _ _ _ HInv Hag Hes) as [Hag1 Hes'].
  pose proof (Inv_run _ _ _ _ _ HInv Hes) as HInv1.
  pose proof (Inv_agree _ _ _ _ _ Hag1 HInv1) as HInvw1.
  fold h1 in HInv1, Hag1. fold hw1 in HInvw1, Hag1.
  split; [|split; [done|split]].
  - destruct HInvw1 as [_ (op & a & Hd & (Hp & _ & _ & Hel) & Ha & Hviews & _)].
    exists op, a. split_and!; try done.
    intros k v Hk.
    destruct (Hviews _ _ Hk) as (pb & a' & xs & Hpb & _ & (Hp' & _ & _ & Hel') & ? & ?).
    exists pb, a'. split_and!; try done.
    rewrite Hel'. by rewrite take_app_length.
  - intros batch. by apply (Next_agree (dom (arrays h0)) P).
  - intros v i Hv. by apply (ColVec_agree (dom (arrays h0)) P d).
Qed.

(** ** Elision of the identity projection *)

Lemma redundant_loop_false xs i : redundant_loop xs i false = false.
Proof.
  revert i. induction xs as [|x xs IH]; intros i; [done|]. simpl.
  by destruct (decide (x ≠ uint32 i)).
Qed.

Lemma redundant_loop_true xs i :
  redundant_loop xs i true = true ↔
  ∀ j x, xs !! j = Some x → x = uint32 (i + Z.of_nat j).
Proof.
  revert i. induction xs as [|x xs IH]; intros i; simpl.
  - split; [intros _ j y Hj; by rewrite lookup_nil in Hj | done].
  - destruct (decide (x ≠ uint32 i)) as [Hne|Heq].
    + rewrite redundant_loop_false. split; [done|]. intros Hall.
      exfalso. apply Hne. rewrite (Hall 0%nat x eq_refl). f_equal. lia.
    + apply dec_stable in Heq. rewrite IH. split.
      * intros Hall [|j] y Hj; simpl in Hj.
        -- injection Hj as <-. rewrite Heq. f_equal. lia.
        -- rewrite (Hall j y Hj). f_equal. lia.
      * intros Hall j y Hj. rewrite (Hall (S j) y Hj). f_equal. lia.
Qed.

(** What the code compares: the length with [numInputCols], and each
    element with its index converted to [uint32]. *)
Lemma projectionIsRedundant_iff n proj h :
  projectionIsRedundant n proj h = true ↔
  n = Go.len proj ∧ ∀ i x, Go.elems h proj !! i = Some x → x = uint32 (Z.of_nat i).
Proof.
  unfold projectionIsRedundant. destruct (decide (n = Go.len proj)) as [Hn|Hn].
  - rewrite redundant_loop_true. split; [intros Hall|intros [_ Hall]]; naive_solver.
  - split; [done | by intros [? _]].
Qed.

(** C3 (identity), as amended.  For a projection list of at most [2^32]
    elements: [NewSimpleProjectOp] returns [input] itself, and leaves the
    stores alone, when the list has [numInputCols] elements and holds [i]
    at every position [i]; otherwise it returns a newly allocated
    operator. *)
Theorem C3_identity_elision input n proj h :
  valid_slice h proj →
  Go.len proj ≤ 2 ^ 32 →
  elides_exactly_identity input n proj h.
Proof.
  intros Hvalid Hlen. pose proof (length_elems h proj Hvalid) as Hel.
  assert (identity_permutation n (Go.elems h proj) ↔
          projectionIsRedundant n proj h = true) as Hiff.
  { rewrite projectionIsRedundant_iff. unfold identity_permutation, Go.len in *.
    rewrite Hel. split; intros [Hn Hall]; (split; [done|]); intros i x Hi.
    - rewrite (Hall i x Hi). apply lookup_lt_Some in Hi.
      rewrite uint32_small; [done | lia].
    - rewrite (Hall i x Hi). apply lookup_lt_Some in Hi. apply uint32_small. lia. }
  split.
  - intros Hid. apply NewSimpleProjectOp_elided. by apply Hiff.
  - intros Hid. destruct (projectionIsRedundant n proj h) eqn:Hred.
    + exfalso. by apply Hid, Hiff.
    + destruct (NewSimpleProjectOp_fresh input n proj h Hred) as (Hfst & Hops & _).
      eexists. split; [done|]. split; [apply is_fresh|].
      rewrite Hops, dom_insert_L. apply elem_of_union_l. by apply elem_of_singleton.
Qed.

Lemma length_wide_projection : length wide_projection = Z.to_nat (2 ^ 32 + 1).
Proof. unfold wide_projection. rewrite length_fmap, length_seq. reflexivity. Qed.

Lemma wide_projection_lookup i x :
  wide_projection !! i = Some x → x = uint32 (Z.of_nat i).
Proof.
  unfold wide_projection. rewrite list_lookup_fmap. intros Hi.
  apply fmap_Some in Hi as (j & Hj & ->). apply lookup_seq in Hj as [-> _]. done.
Qed.

Lemma wide_projection_at i :
  (i < Z.to_nat (2 ^ 32 + 1))%nat → wide_projection !! i = Some (uint32 (Z.of_nat i)).
Proof.
  intros Hi. unfold wide_projection. rewrite list_lookup_fmap.
  rewrite (lookup_seq_lt 0 _ i Hi). reflexivity.
Qed.

Lemma wide_projection_last : wide_projection !! Z.to_nat (2 ^ 32) = Some 0.
Proof.
  rewrite wide_projection_at by lia. rewrite Z2Nat.id by lia. reflexivity.
Qed.

Lemma wide_slice_owns : owns wide_heap wide_slice 1%positive wide_projection.
Proof.
  apply owns_new; [apply lookup_singleton_eq | apply length_wide_projection].
Qed.

(** C3, as stated, fails for the wide projection: the list is not the
    identity (position [2^32] holds 0), yet [input] is returned. *)
Lemma C3_counterexample :
  valid_slice wide_heap wide_slice ∧
  ¬ elides_exactly_identity (otherOp 1%positive) (2 ^ 32 + 1) wide_slice wide_heap.
Proof.
  destruct wide_slice_owns as (_ & _ & Hvalid & Hel).
  split; [exact Hvalid|]. intros [_ Hnew].
  assert (projectionIsRedundant (2 ^ 32 + 1) wide_slice wide_heap = true) as Hred.
  { apply projectionIsRedundant_iff. split.
    - unfold Go.len, wide_slice. cbn [sl_len]. rewrite Z2Nat.id; [reflexivity | lia].
    - rewrite Hel. apply wide_projection_lookup. }
  destruct Hnew as (l & Hfst & _).
  - rewrite Hel. intros [_ Hall].
    pose proof (Hall (Z.to_nat (2 ^ 32)) 0 wide_projection_last) as H0.
    clear -H0. rewrite Z2Nat.id in H0 by (clear; lia). lia.
  - pose proof (NewSimpleProjectOp_elided (otherOp 1%positive) _ _ _ Hred) as E.
    rewrite E in Hfst. discriminate Hfst.
Qed.

(** ** Appending a column through a view *)

(** The index [AppendCol] enters in the projection list is the last
    column of the batch as long as that index is a [uint32]. *)
Lemma new_column_index w : 0 ≤ w < 2 ^ 32 → uint32 (uint32 (w + 1) - 1) = w.
Proof.
  intros Hw. unfold uint32. rewrite Zminus_mod_idemp_l.
  replace (w + 1 - 1) with w by lia. by apply Z.mod_small.
Qed.

(** What [AppendCol] does whatever the width of the batch: the entry
    added to the projection list is the new width converted to [uint32],
    minus one in [uint32]. *)
Lemma AppendCol_effect h b t pb l cols :
  pbatches h !! b = Some pb →
  pb_Batch pb = Some l →
  membatches h !! l = Some cols →
  valid_slice h (pb_projection pb) →
  let h' := snd (AppendCol b t h) in
  let w := Go.len (pb_projection pb) in
  let v := fresh (dom (vecs h)) in
  let x := uint32 (uint32 (Z.of_nat (length cols) + 1) - 1) in
  fst (AppendCol b t h) = Ok tt ∧
  fst (Width b h) = Ok w ∧
  fst (Width b h') = Ok (w + 1) ∧
  membatches h' !! l = Some (cols ++ [v]) ∧
  (v ∉ dom (vecs h)) ∧ vecs h' !! v = Some t ∧
  fst (ColVec b w h') = fst (coldata.ColVec (Some l) x h') ∧
  ∃ pb', pbatches h' !! b = Some pb' ∧ pb_Batch pb' = Some l ∧
         Go.elems h' (pb_projection pb') = Go.elems h (pb_projection pb) ++ [x].
Proof.
  intros Hpb HB Hl Hvalid h' w v x.
  destruct (AppendCol_spec h b t pb l cols Hpb HB Hl Hvalid)
    as (s' & an & arrs' & Hcall & Hps' & Hor & Hlen & Hvs' & Hels' & Hfr & Hdom).
  cbn zeta in Hcall, Hvs', Hels'. fold v in Hcall, Hvs', Hels'.
  assert (Z.of_nat (length (cols ++ [v])) = Z.of_nat (length cols) + 1) as Hw.
  { rewrite length_app. simpl. lia. }
  rewrite Hw in Hels'. fold x in Hels'.
  subst h'. rewrite Hcall. cbn [fst snd].
  set (h' := MkHeap _ _ _ _ _ _ _) in *.
  assert (pbatches h' !! b = Some (ProjectingBatch (Some l) s')) as Hpb'
    by apply lookup_insert_eq.
  split; [done|].
  split; [unfold Width, bind, deref_projectingBatch; by rewrite Hpb|].
  split.
  { unfold Width, bind, deref_projectingBatch. rewrite Hpb'. unfold ret. cbn [fst].
    f_equal. unfold w, Go.len. heap_simpl. rewrite Hlen. lia. }
  split; [apply lookup_insert_eq|]. split; [apply is_fresh|].
  split; [apply lookup_insert_eq|]. split.
  - unfold w, Go.len. rewrite (ColVec_at h' b _ _ x Hpb'); [done|]. heap_simpl.
    rewrite Hels', <- (length_elems h (pb_projection pb) Hvalid).
    apply list_lookup_middle. done.
  - eexists. split; [done|]. split; [done|]. done.
Qed.

(** C6 (append), as amended.  For a view of width [w] that wraps a batch
    of fewer than [2^32] columns, [AppendCol(t)] returns normally, the
    width of the view becomes [w + 1], the batch has one new vector of
    type [t] as its last column, the projection list of the view has the
    index of that column as its new last element, and [ColVec(w)] is the
    new vector. *)
Theorem C6_append h b t pb l cols :
  pbatches h !! b = Some pb →
  pb_Batch pb = Some l →
  membatches h !! l = Some cols →
  valid_slice h (pb_projection pb) →
  Z.of_nat (length cols) < 2 ^ 32 →
  appended_column_visible h b t pb l cols.
Proof.
  intros Hpb HB Hl Hvalid Hwidth.
  destruct (AppendCol_effect h b t pb l cols Hpb HB Hl Hvalid)
    as (Hok & Hw & Hw' & Hcols & Hv & Hvt & Hcol & pb' & Hpb' & HB' & Hel).
  rewrite new_column_index in Hcol, Hel by lia.
  split; [done|]. split; [done|]. split; [done|].
  exists (fresh (dom (vecs h))), pb'. split_and!; try done.
  rewrite Hcol. rewrite (coldata_ColVec_at _ l _ _ (fresh (dom (vecs h))) Hcols); [done|lia|].
  rewrite Nat2Z.id. by apply list_lookup_middle.
Qed.

(** C6, as stated, fails for the wide batch: the new width [2^32 + 1]
    converts to the [uint32] 1, the index entered is 0, and [ColVec(0)] of
    the view is the first column of the batch, not the new one. *)
Lemma C6_counterexample :
  pbatches wide_batch_heap !! 1%positive = Some wide_view ∧
  pb_Batch wide_view = Some 1%positive ∧
  membatches wide_batch_heap !! 1%positive = Some wide_cols ∧
  valid_slice wide_batch_heap (pb_projection wide_view) ∧
  ¬ appended_column_visible wide_batch_heap 1%positive 0 wide_view 1%positive wide_cols.
Proof.
  assert (pbatches wide_batch_heap !! 1%positive = Some wide_view) as Hpb
    by apply lookup_singleton_eq.
  assert (membatches wide_batch_heap !! 1%positive = Some wide_cols) as Hl
    by apply lookup_singleton_eq.
  assert (valid_slice wide_batch_heap (pb_projection wide_view)) as Hvalid.
  { exists []. split; [apply lookup_singleton_eq|]. split; reflexivity. }
  split; [exact Hpb|]. split; [reflexivity|]. split; [exact Hl|]. split; [exact Hvalid|].
  intros (_ & _ & _ & v & pb' & _ & Hv & _ & Hcol & _).
  destruct (AppendCol_effect wide_batch_heap 1%positive 0 wide_view 1%positive wide_cols
              Hpb eq_refl Hl Hvalid)
    as (_ & _ & _ & Hcols & _ & _ & Hcol' & _).
  assert (Z.of_nat (length wide_cols) = 2 ^ 32) as Hlen.
  { unfold wide_cols. rewrite length_replicate. apply Z2Nat.id. clear. lia. }
  rewrite Hlen in Hcol'.
  change (uint32 (uint32 (2 ^ 32 + 1) - 1)) with 0 in Hcol'.
  rewrite Hcol' in Hcol.
  rewrite (coldata_ColVec_at _ 1%positive _ 0 1%positive Hcols) in Hcol.
  - cbn [fst] in Hcol. injection Hcol as <-.
    apply Hv. apply elem_of_dom. exists 0. apply lookup_singleton_eq.
  - clear. lia.
  - change (Z.to_nat 0) with 0%nat. apply lookup_app_l_Some.
    unfold wide_cols. apply lookup_replicate_2. clear. lia.
Qed.

(** ** A small pipeline *)

Lemma ex_reachable : reachable ex_heap (otherOp 9%positive) 3 ex_proj 1%positive ex_built.
Proof.
  apply reachable_new.
  - exists [2; 0]. split; [reflexivity|]. simpl. lia.
  - vm_compute. reflexivity.
  - vm_compute. reflexivity.
Defined.

Lemma C1_witness :
  reachable ex_heap (otherOp 9%positive) 3 ex_proj 1%positive ex_built ∧
  ∃ o, fst (Next 1%positive (Some 5%positive) ex_built) = Ok o ∧
       fst (ColVec o 0 (snd (Next 1%positive (Some 5%positive) ex_built))) = Ok 12%positive ∧
       fst (ColVec o 1 (snd (Next 1%positive (Some 5%positive) ex_built))) = Ok 10%positive.
Proof.
  split; [exact ex_reachable|].
  destruct (C1_order_selection _ _ _ _ _ _ (Some 5%positive) ex_reachable)
    as (o & Ho & _ & Hvec & _).
  exists o. split; [exact Ho|]. split.
  - apply (Hvec 0%nat 2 5%positive [10%positive; 11%positive; 12%positive]);
      first [reflexivity | lia | vm_compute; reflexivity].
  - apply (Hvec 1%nat 0 5%positive [10%positive; 11%positive; 12%positive]);
      first [reflexivity | lia | vm_compute; reflexivity].
Defined.

Lemma C2_witness :
  reachable ex_heap (otherOp 9%positive) 3 ex_proj 1%positive ex_built ∧
  ∃ o, Next 1%positive (Some 5%positive) ex_built =
         (Ok o, step 1%positive (Pull (Some 5%positive)) ex_built) ∧
       Next 1%positive (Some 5%positive) (step 1%positive (Pull (Some 5%positive)) ex_built) =
         (Ok o, step 1%positive (Pull (Some 5%positive)) ex_built).
Proof.
  split; [exact ex_reachable|].
  destruct (C2_reuse _ _ _ _ _ _ (Some 5%positive) ex_reachable)
    as (op & o & op' & _ & Hnext & _ & _ & _ & _ & _ & Hagain).
  exists o. split; [exact Hnext|]. exact (Hagain [] I).
Defined.

Lemma C3_witness :
  valid_slice ex_heap ex_proj ∧ Go.len ex_proj ≤ 2 ^ 32 ∧
  elides_exactly_identity (otherOp 9%positive) 3 ex_proj ex_heap.
Proof.
  assert (valid_slice ex_heap ex_proj) as Hvalid.
  { exists [2; 0]. split; [reflexivity|]. simpl. lia. }
  assert (Go.len ex_proj ≤ 2 ^ 32) as Hlen by (vm_compute; discriminate).
  split; [exact Hvalid|]. split; [exact Hlen|].
  exact (C3_identity_elision (otherOp 9%positive) 3 ex_proj ex_heap Hvalid Hlen).
Defined.

Lemma C4_witness :
  reachable ex_heap (otherOp 9%positive) 3 ex_proj 1%positive ex_built ∧
  ∃ o pb', fst (Next 1%positive (Some 5%positive) ex_built) = Ok o ∧
           pbatches (snd (Next 1%positive (Some 5%positive) ex_built)) !! o = Some pb' ∧
           pb_Batch pb' = Some 5%positive.
Proof.
  split; [exact ex_reachable|].
  destruct (C4_repoint _ _ _ _ _ _ (Some 5%positive) ex_reachable)
    as (o & pb' & Ho & Hpb' & HB & _).
  exists o, pb'. split; [exact Ho|]. split; [exact Hpb' | exact HB].
Defined.

Lemma C6_witness :
  pbatches ex_view_heap !! 1%positive = Some ex_view ∧
  pb_Batch ex_view = Some 5%positive ∧
  membatches ex_view_heap !! 5%positive = Some [10%positive; 11%positive; 12%positive] ∧
  valid_slice ex_view_heap (pb_projection ex_view) ∧
  Z.of_nat (length [10%positive; 11%positive; 12%positive]) < 2 ^ 32 ∧
  appended_column_visible ex_view_heap 1%positive 7 ex_view 5%positive
    [10%positive; 11%positive; 12%positive].
Proof.
  assert (valid_slice ex_view_heap (pb_projection ex_view)) as Hvalid.
  { exists [2; 0]. split; [reflexivity|]. simpl. lia. }
  assert (Z.of_nat (length [10%positive; 11%positive; 12%positive]) < 2 ^ 32) as Hlt
    by (simpl; lia).
  split; [reflexivity|]. split; [reflexivity|]. split; [reflexivity|].
  split; [exact Hvalid|]. split; [exact Hlt|].
  exact (C6_append ex_view_heap 1%positive 7 ex_view 5%positive _
           eq_refl eq_refl eq_refl Hvalid Hlt).
Defined.


Lemma C8_witness :
  pbatches ex_view_heap !! 1%positive = Some ex_view ∧
  Width 1%positive ex_view_heap = (Ok 2, ex_view_heap).
Proof.
  split; [reflexivity|].
  exact (proj1 (C8_Width ex_view_heap 1%positive (Some 5%positive)
                  (Slice (Some 3%positive) 0 2 2) eq_refl)).
Defined.

Lemma C9_witness :
  reachable ex_heap (otherOp 9%positive) 3 ex_proj 1%positive ex_built ∧
  agree (dom (arrays ex_heap)) (step 1%positive (Store 1%positive 0 7) ex_built) ex_built ∧
  admissible_trace (dom (arrays ex_heap)) 1%positive ex_built [Pull (Some 5%positive)] ∧
  ∀ batch,
    fst (Next 1%positive batch
           (run 1%positive [Pull (Some 5%positive)]
              (step 1%positive (Store 1%positive 0 7) ex_built))) =
    fst (Next 1%positive batch (run 1%positive [Pull (Some 5%positive)] ex_built)).
Proof.
  assert (agree (dom (arrays ex_heap))
            (step 1%positive (Store 1%positive 0 7) ex_built) ex_built) as Hag.
  { apply agree_Store. apply elem_of_dom. exists [2; 0]. reflexivity. }
  assert (admissible_trace (dom (arrays ex_heap)) 1%positive ex_built
            [Pull (Some 5%positive)]) as Hes by (simpl; tauto).
  split; [exact ex_reachable|]. split; [exact Hag|]. split; [exact Hes|].
  destruct (C9_defensive_copy _ _ _ _ _ _ _ [Pull (Some 5%positive)] ex_reachable Hag Hes)
    as (_ & _ & Hnext & _).
  exact Hnext.
Defined.

(** ** The scenarios of the specification *)

(** [n = 3], [P = [0; 1; 2]]: the input is returned, nothing is
    allocated. *)
Example scenario_identity :
  let h := MkHeap {[ 1%positive := [0; 1; 2] ]} ∅ ∅ ∅ ∅ 0 [] in
  NewSimpleProjectOp (otherOp 9%positive) 3 (Slice (Some 1%positive) 0 3 3) h
  = (Ok (otherOp 9%positive), h).
Proof. vm_compute. reflexivity. Qed.

(** [n = 3], [P = [2; 0]], a batch of columns 10, 11, 12: the view has
    width 2 and its columns are 12 and 10. *)
Example scenario_reorder :
  let h := snd (Next 1%positive (Some 5%positive) ex_built) in
  fst (Next 1%positive (Some 5%positive) ex_built) = Ok 1%positive ∧
  fst (Width 1%positive h) = Ok 2 ∧
  fst (ColVec 1%positive 0 h) = Ok 12%positive ∧
  fst (ColVec 1%positive 1 h) = Ok 10%positive ∧
  fst (ColVec 1%positive 2 h) = Panicked index_out_of_range.
Proof. vm_compute. repeat split. Qed.

(** Two pulls of the same batch return the same view; a pull of another
    batch returns another one, and the first is found again. *)
Example scenario_reuse :
  let h1 := step 1%positive (Pull (Some 5%positive)) ex_built in
  let h2 := step 1%positive (Pull (Some 6%positive)) h1 in
  fst (Next 1%positive (Some 5%positive) ex_built) = Ok 1%positive ∧
  fst (Next 1%positive (Some 5%positive) h1) = Ok 1%positive ∧
  fst (Next 1%positive (Some 6%positive) h1) = Ok 2%positive ∧
  fst (Next 1%positive (Some 5%positive) h2) = Ok 1%positive.
Proof. vm_compute. repeat split. Qed.

(** [P = [0; 0]] on a batch of columns 10 and 11: width 2, and both
    positions give the vector 10. *)
Example scenario_duplicate :
  let h0 := MkHeap {[ 1%positive := [0; 0] ]} {[ 10%positive := 0; 11%positive := 0 ]}
              {[ 5%positive := [10%positive; 11%positive] ]} ∅ ∅ 0 [] in
  let h1 := snd (NewSimpleProjectOp nilOp 2 (Slice (Some 1%positive) 0 2 2) h0) in
  let h2 := snd (Next 1%positive (Some 5%positive) h1) in
  fst (Width 1%positive h2) = Ok 2 ∧
  fst (ColVec 1%positive 0 h2) = Ok 10%positive ∧
  fst (ColVec 1%positive 1 h2) = Ok 10%positive.
Proof. vm_compute. repeat split. Qed.

(** Three hundred batches, all different, with logging on: the sizes 128
    and 256 are reported, once each, and the threshold is 512. *)
Example scenario_threshold :
  let h := run 1%positive ((fun i => Pull (Some (Pos.of_nat i))) <$> seq 1 300) ex_built in
  logged h = [128; 256] ∧
  op_numBatchesLoggingThreshold <$> operators h !! 1%positive = Some 512.
Proof. vm_compute. repeat split. Qed.

(** [AppendCol] through a view: the batch gets a fourth column, the new
    vector 13, and the view shows it at position 2. *)
Example scenario_append :
  let h := snd (AppendCol 1%positive 7 ex_view_heap) in
  fst (Width 1%positive h) = Ok 3 ∧
  membatches h !! 5%positive = Some [10%positive; 11%positive; 12%positive; 13%positive] ∧
  vecs h !! 13%positive = Some 7 ∧
  fst (ColVec 1%positive 2 h) = Ok 13%positive.
Proof. vm_compute. repeat split. Qed.

(** ** Further properties of the projecting batch *)

(** [newProjectionBatch] allocates a view that wraps no batch yet and
    holds the elements of [projection] in a new backing array; nothing
    that existed is written, and [projection] still holds what it held.
    Until the view is pointed at a batch, [ColVec] at any position of its
    list panics on the nil batch. *)
Theorem newProjectionBatch_copies h projection :
  valid_slice h projection →
  let p := fresh (dom (pbatches h)) in
  let a := fresh (dom (arrays h)) in
  let n := sl_len projection in
  let h' := MkHeap (<[a := Go.elems h projection]> (arrays h)) (vecs h) (membatches h)
              (<[p := ProjectingBatch None (Slice (Some a) 0 n n)]> (pbatches h))
              (operators h) (verbosity h) (logged h) in
  newProjectionBatch projection h = (Ok p, h') ∧
  (p ∉ dom (pbatches h)) ∧ (a ∉ dom (arrays h)) ∧
  Go.elems h' (Slice (Some a) 0 n n) = Go.elems h projection ∧
  Go.elems h' projection = Go.elems h projection ∧
  Width p h' = (Ok (Go.len projection), h') ∧
  ∀ i, (i < n)%nat → ColVec p (Z.of_nat i) h' = (Panicked nil_dereference, h').
Proof.
  intros Hvalid p a n h'.
  assert (a ∉ dom (arrays h)) as Ha by apply is_fresh.
  pose proof (length_elems h projection Hvalid) as Hlen.
  assert (owns h' (Slice (Some a) 0 n n) a (Go.elems h projection)) as (_ & _ & _ & Hel).
  { apply owns_new; [apply lookup_insert_eq | done]. }
  assert (pbatches h' !! p = Some (ProjectingBatch None (Slice (Some a) 0 n n))) as Hp
    by apply lookup_insert_eq.
  split.
  { unfold newProjectionBatch, bind, Go.make, new_projectingBatch, Go.copy, ret.
    heap_simpl. fold a p n.
    by erewrite (copy_into_new h _ projection a n Hvalid eq_refl Ha) by reflexivity. }
  split; [apply is_fresh|]. split; [done|]. split; [done|].
  split; [by apply (elems_fresh h h' projection a (Go.elems h projection) Hvalid Ha)|].
  split; [unfold Width, bind, deref_projectingBatch; by rewrite Hp|].
  intros i Hi.
  destruct (lookup_lt_is_Some_2 (Go.elems h projection) i) as [x Hx]; [lia|].
  rewrite (ColVec_at h' p _ i x Hp); [done|]. cbn [pb_projection]. by rewrite Hel.
Qed.

(** The panics of [ColVec], none of which writes anything: a position
    outside the view's list is out of range; inside it, a view that wraps
    no batch is a nil dereference, and an index that is not a column of
    the wrapped batch is out of range.  When [ColVec] returns, the stores
    are as they were. *)
Theorem ColVec_panics h b pb i :
  pbatches h !! b = Some pb →
  (i < 0 ∨ Go.len (pb_projection pb) ≤ i →
     ColVec b i h = (Panicked index_out_of_range, h)) ∧
  (∀ x, 0 ≤ i → Go.elems h (pb_projection pb) !! Z.to_nat i = Some x →
     (pb_Batch pb = None → ColVec b i h = (Panicked nil_dereference, h)) ∧
     (∀ l cols, pb_Batch pb = Some l → membatches h !! l = Some cols →
        x < 0 ∨ Z.of_nat (length cols) ≤ x →
        ColVec b i h = (Panicked index_out_of_range, h))) ∧
  snd (ColVec b i h) = h.
Proof.
  intros Hpb. split; [|split].
  - intros Hi. unfold ColVec, bind, deref_projectingBatch, Go.index. rewrite Hpb.
    destruct (0 <=? i) eqn:E1; [|done].
    destruct (i <? Go.len (pb_projection pb)) eqn:E2; [lia|done].
  - intros x Hi Hx.
    assert (ColVec b i h = coldata.ColVec (pb_Batch pb) x h) as ->.
    { rewrite <- (Z2Nat.id i) at 1 by done. by apply ColVec_at. }
    split.
    + by intros ->.
    + intros l cols -> Hl Hrange. unfold coldata.ColVec, bind, coldata.deref. rewrite Hl.
      destruct (0 <=? x) eqn:E1; [|done].
      destruct (x <? Z.of_nat (length cols)) eqn:E2; [lia|done].
  - unfold ColVec, bind, deref_projectingBatch, Go.index. rewrite Hpb.
    destruct ((0 <=? i) && (i <? Go.len (pb_projection pb))); [|done].
    destruct (Go.elems h (pb_projection pb) !! Z.to_nat i) as [x|]; [|done].
    unfold coldata.ColVec, bind, coldata.deref.
    destruct (pb_Batch pb) as [l|]; [|done].
    destruct (membatches h !! l) as [cols|]; [|done].
    destruct ((0 <=? x) && (x <? Z.of_nat (length cols))); [|done].
    by destruct (cols !! Z.to_nat x).
Qed.

(** [AppendCol] through a view that wraps no batch (as a view is between
    [newProjectionBatch] and its first pull) panics on the nil batch
    before anything is written: the projection list of the view does not
    grow. *)
Theorem AppendCol_without_batch h b t pb :
  pbatches h !! b = Some pb →
  pb_Batch pb = None →
  AppendCol b t h = (Panicked nil_dereference, h) ∧
  Width b h = (Ok (Go.len (pb_projection pb)), h).
Proof.
  intros Hpb HB. split.
  - apply (AppendCol_no_batch h b t pb Hpb). intros l Hl. congruence.
  - unfold Width, bind, deref_projectingBatch. by rewrite Hpb.
Qed.

Lemma AppendCol_valid h b t pb l cols :
  pbatches h !! b = Some pb →
  pb_Batch pb = Some l →
  membatches h !! l = Some cols →
  valid_slice h (pb_projection pb) →
  ∃ pb', pbatches (snd (AppendCol b t h)) !! b = Some pb' ∧
         valid_slice (snd (AppendCol b t h)) (pb_projection pb') ∧
         vecs (snd (AppendCol b t h)) = <[fresh (dom (vecs h)) := t]> (vecs h).
Proof.
  intros Hpb HB Hl Hvalid.
  destruct (AppendCol_spec h b t pb l cols Hpb HB Hl Hvalid)
    as (s' & an & arrs' & Hcall & _ & _ & _ & Hvs' & _).
  cbn zeta in Hcall, Hvs'. rewrite Hcall. cbn [snd].
  eexists. split; [apply lookup_insert_eq|]. split; done.
Qed.

(** [AppendCol] leaves the columns the view showed where they were: a
    position that gave a vector of the batch before gives the same vector
    after, whatever the width of the batch. *)
Theorem AppendCol_keeps_columns h b t pb l cols i x c :
  pbatches h !! b = Some pb →
  pb_Batch pb = Some l →
  membatches h !! l = Some cols →
  valid_slice h (pb_projection pb) →
  Go.elems h (pb_projection pb) !! i = Some x →
  0 ≤ x → cols !! Z.to_nat x = Some c →
  fst (ColVec b (Z.of_nat i) h) = Ok c ∧
  fst (ColVec b (Z.of_nat i) (snd (AppendCol b t h))) = Ok c.
Proof.
  intros Hpb HB Hl Hvalid Hi Hx Hc. split.
  - rewrite (ColVec_at h b pb i x Hpb Hi), HB.
    by rewrite (coldata_ColVec_at h l cols x c).
  - destruct (AppendCol_effect h b t pb l cols Hpb HB Hl Hvalid)
      as (_ & _ & _ & Hcols & _ & _ & _ & pb' & Hpb' & HB' & Hel).
    rewrite (ColVec_at _ b pb' i x Hpb'), HB'.
    + rewrite (coldata_ColVec_at _ l _ x c Hcols); [done..|].
      by apply lookup_app_l_Some.
    + rewrite Hel. by apply lookup_app_l_Some.
Qed.

(** Two [AppendCol]s in a row on a view of width [w] that wraps a batch
    of fewer than [2^32 - 1] columns: the width is [w + 2], position [w]
    shows the first new vector and position [w + 1] the second, and the
    two are different vectors of the types asked for. *)
Theorem AppendCol_twice h b t1 t2 pb l cols :
  pbatches h !! b = Some pb →
  pb_Batch pb = Some l →
  membatches h !! l = Some cols →
  valid_slice h (pb_projection pb) →
  Z.of_nat (length cols) + 1 < 2 ^ 32 →
  let h2 := snd (AppendCol b t2 (snd (AppendCol b t1 h))) in
  let w := Go.len (pb_projection pb) in
  ∃ v1 v2,
    v1 ≠ v2 ∧
    membatches h2 !! l = Some (cols ++ [v1; v2]) ∧
    vecs h2 !! v1 = Some t1 ∧ vecs h2 !! v2 = Some t2 ∧
    fst (Width b h2) = Ok (w + 2) ∧
    fst (ColVec b w h2) = Ok v1 ∧
    fst (ColVec b (w + 1) h2) = Ok v2.
Proof.
  intros Hpb HB Hl Hvalid Hwidth h2 w.
  destruct (AppendCol_effect h b t1 pb l cols Hpb HB Hl Hvalid)
    as (_ & _ & Hw1 & Hcols1 & Hv1 & Hvt1 & _ & pb1 & Hpb1 & HB1 & Hel1).
  destruct (AppendCol_valid h b t1 pb l cols Hpb HB Hl Hvalid)
    as (pb1' & Hpb1' & Hvalid1 & Hvecs1).
  assert (pb1' = pb1) as -> by congruence.
  rewrite new_column_index in Hel1 by lia.
  set (h1 := snd (AppendCol b t1 h)) in *. set (v1 := fresh (dom (vecs h))) in *.
  destruct (AppendCol_effect h1 b t2 pb1 l _ Hpb1 HB1 Hcols1 Hvalid1)
    as (_ & Hw1' & Hw2 & Hcols2 & Hv2 & Hvt2 & Hcol2 & pb2 & Hpb2 & HB2 & Hel2).
  fold h2 in Hw2, Hcols2, Hvt2, Hcol2, Hpb2, Hel2.
  set (v2 := fresh (dom (vecs h1))) in *.
  assert (Z.of_nat (length (cols ++ [v1])) = Z.of_nat (length cols) + 1) as Hlen1.
  { rewrite length_app. simpl. lia. }
  rewrite Hlen1, new_column_index in Hcol2, Hel2 by lia.
  assert (Go.len (pb_projection pb1) = w + 1) as Hwpb1.
  { fold h1 in Hw1. rewrite Hw1 in Hw1'. by injection Hw1'. }
  assert (length (Go.elems h (pb_projection pb)) = Z.to_nat w) as Hlenw.
  { rewrite (length_elems h _ Hvalid). unfold w, Go.len. by rewrite Nat2Z.id. }
  exists v1, v2. split_and!.
  - intros Heq. apply Hv2. rewrite <- Heq, Hvecs1, dom_insert_L.
    apply elem_of_union_l. by apply elem_of_singleton.
  - by rewrite Hcols2, <- app_assoc.
  - pose proof (AppendCol_valid h1 b t2 pb1 l _ Hpb1 HB1 Hcols1 Hvalid1)
      as (_ & _ & _ & Hvecs2).
    fold h2 in Hvecs2. rewrite Hvecs2, lookup_insert_ne; [done|].
    intros Heq. apply Hv2. fold v2 in Heq. rewrite Heq, Hvecs1, dom_insert_L.
    apply elem_of_union_l. by apply elem_of_singleton.
  - done.
  - rewrite Hw2, Hwpb1. f_equal. lia.
  - assert (Go.elems h2 (pb_projection pb2) !! Z.to_nat w = Some (Z.of_nat (length cols)))
      as Hat.
    { rewrite Hel2, Hel1, <- app_assoc, <- Hlenw. by apply list_lookup_middle. }
    rewrite <- (Z2Nat.id w) at 1 by (unfold w, Go.len; lia).
    rewrite (ColVec_at h2 b pb2 _ _ Hpb2 Hat), HB2.
    rewrite (coldata_ColVec_at h2 l _ _ v1 Hcols2); [done|lia|].
    rewrite Nat2Z.id, <- app_assoc. by apply list_lookup_middle.
  - rewrite <- Hwpb1, Hcol2.
    rewrite (coldata_ColVec_at h2 l _ _ v2 Hcols2); [done|lia|].
    rewrite <- Hlen1, Nat2Z.id. by apply list_lookup_middle.
Qed.

(** ** Further properties of the operator *)


(** A pull has no terminal handling: when the upstream hands back the
    nil batch, [Next] still returns a view, cached under nil; its width
    is at least [len(P)], and [ColVec] at every position of [P] panics on
    the nil batch. *)
Theorem Next_nil_batch h0 input n proj d h :
  reachable h0 input n proj d h →
  ∃ o w,
    Next d None h = (Ok o, step d (Pull None) h) ∧
    fst (Width o (step d (Pull None) h)) = Ok w ∧
    Z.of_nat (length (Go.elems h0 proj)) ≤ w ∧
    ∀ i, (i < length (Go.elems h0 proj))%nat →
      ColVec o (Z.of_nat i) (step d (Pull None) h) =
        (Panicked nil_dereference, step d (Pull None) h).
Proof.
  intros Hreach. apply reachable_Inv in Hreach as HInv.
  destruct (Next_returns _ _ _ _ None HInv) as (o & op' & Hnext & Hd' & Ho).
  pose proof (Inv_Pull _ _ _ _ None HInv) as [_ (op & a & Hd & _ & _ & Hviews & _)].
  assert (op = op') as -> by congruence.
  destruct (Hviews _ _ Ho) as (pb & a' & xs & Hpb & HB & (_ & _ & Hvalid & Hel) & _).
  exists o, (Go.len (pb_projection pb)). split; [done|].
  split; [unfold Width, bind, deref_projectingBatch; by rewrite Hpb|].
  split.
  { unfold Go.len. rewrite <- (length_elems _ _ Hvalid), Hel, length_app. lia. }
  intros i Hi.
  destruct (lookup_lt_is_Some_2 (Go.elems h0 proj) i Hi) as [x Hx].
  rewrite (ColVec_at _ o pb i x Hpb); [by rewrite HB|].
  rewrite Hel. by apply lookup_app_l_Some.
Qed.

(** The list of a view starts as the operator's list and only grows: the
    view returned by a pull that misses the cache holds exactly [P] and
    has width [len(P)], whatever was appended through other views; the
    view returned by any pull holds [P] followed by what was appended
    through it. *)
Theorem Next_view_list h0 input n proj d h batch :
  reachable h0 input n proj d h →
  ∃ o pb xs,
    Next d batch h = (Ok o, step d (Pull batch) h) ∧
    pbatches (step d (Pull batch) h) !! o = Some pb ∧
    Go.elems (step d (Pull batch) h) (pb_projection pb) = Go.elems h0 proj ++ xs ∧
    fst (Width o (step d (Pull batch) h)) =
      Ok (Z.of_nat (length (Go.elems h0 proj)) + Z.of_nat (length xs)) ∧
    (∀ op, operators h !! d = Some op → op_batches op !! batch = None → xs = []).
Proof.
  intros Hreach. apply reachable_Inv in Hreach as HInv.
  destruct (Next_returns _ _ _ _ batch HInv) as (o & op' & Hnext & Hd' & Ho).
  pose proof (Inv_Pull _ _ _ _ batch HInv) as [_ (op1 & a & Hd1 & _ & _ & Hviews & _)].
  assert (op1 = op') as -> by congruence.
  destruct (Hviews _ _ Ho) as (pb & a' & xs & Hpb & HB & (_ & _ & Hvalid & Hel) & _).
  exists o, pb, xs. split; [done|]. split; [done|]. split; [done|]. split.
  { unfold Width, bind, deref_projectingBatch. rewrite Hpb. cbn [fst ret]. f_equal.
    unfold Go.len. rewrite <- (length_elems _ _ Hvalid), Hel, length_app. lia. }
  intros op Hd Hb. pose proof HInv as [_ (op0 & a0 & Hd0 & Hown0 & _)].
  assert (op0 = op) as -> by congruence.
  pose proof (Next_miss_Inv _ _ _ _ _ _ HInv Hd Hb) as Hmiss. cbn zeta in Hmiss.
  simpl in Hnext, Hpb, Hel. rewrite Hmiss in Hnext, Hpb, Hel. heap_simpl.
  injection Hnext as <-. rewrite lookup_insert_eq in Hpb. injection Hpb as <-.
  heap_simpl. destruct Hown0 as (_ & _ & Hvalid0 & Hel0).
  set (h' := MkHeap _ _ _ _ _ _ _) in *.
  assert (owns h' (Slice (Some (fresh (dom (arrays h)))) 0
                     (sl_len (op_projection op)) (sl_len (op_projection op)))
            (fresh (dom (arrays h))) (Go.elems h (op_projection op)))
    as (_ & _ & _ & Hnew).
  { apply owns_new; [apply lookup_insert_eq | by apply length_elems]. }
  rewrite Hnew, Hel0 in Hel. apply (app_inv_head (Go.elems h0 proj)).
  by rewrite app_nil_r.
Qed.

(** A view shows the batch as it is now, not as it was when pulled: once
    the upstream has rewritten the columns of the batch, [ColVec] of the
    view gives the new vectors, with no pull in between. *)
Theorem view_is_live h0 input n proj d h l vs bs cols i x c :
  reachable h0 input n proj d h →
  Go.elems h0 proj !! i = Some x →
  bs !! l = Some cols → 0 ≤ x → cols !! Z.to_nat x = Some c →
  ∃ o, fst (Next d (Some l) h) = Ok o ∧
       fst (ColVec o (Z.of_nat i)
              (step d (Upstream vs bs) (step d (Pull (Some l)) h))) = Ok c.
Proof.
  intros Hreach Hi Hl Hx Hc. apply reachable_Inv in Hreach as HInv.
  destruct (Next_returns _ _ _ _ (Some l) HInv) as (o & op' & Hnext & Hd' & Ho).
  pose proof (Inv_Pull _ _ _ _ (Some l) HInv) as HInv1.
  pose proof (Inv_step _ _ _ _ (Upstream vs bs) I HInv1)
    as [_ (op & a & Hd & _ & _ & Hviews & _)].
  change (operators (step d (Pull (Some l)) h) !! d = Some op) in Hd.
  assert (op = op') as -> by congruence.
  destruct (Hviews _ _ Ho) as (pb & a' & xs & Hpb & HB & (_ & _ & _ & Hel) & _).
  exists o. split; [by rewrite Hnext|].
  rewrite (ColVec_at _ o pb i x Hpb); [|rewrite Hel; by apply lookup_app_l_Some].
  rewrite HB. by rewrite (coldata_ColVec_at _ l cols x c).
Qed.

(** [ColVec] of a view reads the view, the list it holds and the batch it
    wraps, and nothing else. *)
Lemma ColVec_ext h h' b pb i :
  pbatches h !! b = Some pb → pbatches h' !! b = Some pb →
  Go.elems h' (pb_projection pb) = Go.elems h (pb_projection pb) →
  (∀ l, pb_Batch pb = Some l → membatches h' !! l = membatches h !! l) →
  fst (ColVec b i h') = fst (ColVec b i h).
Proof.
  intros Hpb Hpb' Hel Hme. unfold ColVec, bind, deref_projectingBatch.
  rewrite Hpb, Hpb'. unfold Go.index. rewrite Hel.
  destruct ((0 <=? i) && (i <? Go.len (pb_projection pb))); [|done].
  destruct (Go.elems h (pb_projection pb) !! Z.to_nat i) as [x|]; [|done].
  unfold coldata.ColVec, bind, coldata.deref.
  destruct (pb_Batch pb) as [l|]; [|done]. rewrite (Hme l eq_refl).
  destruct (membatches h !! l) as [cols|]; [|done].
  destruct ((0 <=? x) && (x <? Z.of_nat (length cols))); [|done].
  by destruct (cols !! Z.to_nat x).
Qed.

(** [AppendCol] through one view of the operator leaves the others as
    they were: the same width and the same result of [ColVec] at every
    position; and the operator's own list still holds [P]. *)
Theorem AppendCol_other_views h0 input n proj d h v v' t i :
  reachable h0 input n proj d h →
  view_of d h v → view_of d h v' → v' ≠ v →
  let h' := step d (Append v t) h in
  fst (Width v' h') = fst (Width v' h) ∧
  fst (ColVec v' i h') = fst (ColVec v' i h) ∧
  ∃ op, operators h' !! d = Some op ∧
        Go.elems h' (op_projection op) = Go.elems h0 proj.
Proof.
  intros Hreach Hv Hv' Hne h'. apply reachable_Inv in Hreach as HInv.
  pose proof (Inv_Append _ _ _ _ v t Hv HInv) as [_ (op' & a0' & Hd' & Hown' & _)].
  fold h' in Hd', Hown'.
  assert (∃ op, operators h' !! d = Some op ∧
                Go.elems h' (op_projection op) = Go.elems h0 proj) as Hop.
  { exists op'. split; [done|]. by destruct Hown' as (_ & _ & _ & ?). }
  destruct Hv as (op & k & Hd & Hk). destruct Hv' as (op0 & k' & Hd0 & Hk').
  assert (op0 = op) as -> by congruence.
  pose proof HInv as [_ (op1 & a0 & Hd1 & _ & _ & Hviews & Hsep)].
  assert (op1 = op) as -> by congruence.
  destruct (Hviews _ _ Hk) as (pb & a1 & xs & Hpb & HB & (Hp1 & _ & Hvalid & _) & _).
  destruct (Hviews _ _ Hk') as (pb' & a2 & xs' & Hpb' & HB' & (Hp2 & _ & Hvalid' & _) & _).
  assert (k' ≠ k) as Hkk by (intros ->; congruence).
  assert (a2 ≠ a1) as Haa.
  { intros ->. apply Hkk. apply (Hsep k' k v' v pb' pb); congruence. }
  assert ((∃ l cols, k = Some l ∧ membatches h !! l = Some cols) ∨
          (∀ l, pb_Batch pb = Some l → membatches h !! l = None)) as [Hyes|Hno].
  { destruct k as [l|]; [|right; congruence].
    destruct (membatches h !! l) as [cols|] eqn:E; [left; eauto|].
    right. congruence. }
  2:{ subst h'. simpl in *. rewrite (AppendCol_no_batch h v t pb Hpb Hno) in *. done. }
  destruct Hyes as (l & cols & -> & Hl).
  destruct (AppendCol_spec h v t pb l cols Hpb HB Hl Hvalid)
    as (s' & an & arrs' & Hcall & _ & Hor & _ & _ & _ & Hfr & _).
  cbn zeta in Hcall.
  assert (pbatches h' !! v' = Some pb') as Hpb''.
  { subst h'. simpl. rewrite Hcall. heap_simpl. by rewrite lookup_insert_ne. }
  split; [|split; [|done]].
  - unfold Width, bind, deref_projectingBatch. by rewrite Hpb', Hpb''.
  - apply (ColVec_ext h h' v' pb' i Hpb' Hpb'').
    + apply (elems_frame _ _ _ a2 Hp2). subst h'. simpl. rewrite Hcall. heap_simpl.
      apply Hfr. destruct Hor as [[Hq _]|[Hq _]]; [congruence|].
      intros ->. apply Hq. by eapply valid_slice_dom.
    + intros l' Hl'. subst h'. simpl. rewrite Hcall. heap_simpl.
      apply lookup_insert_ne. congruence.
Qed.

Lemma pulled_cons e es : pulled (e :: es) = pulled [e] ∪ pulled es.
Proof.
  destruct e; cbn [pulled]; by rewrite ?union_empty_r_L, ?union_empty_l_L.
Qed.

(** The cache holds exactly the batches the upstream has handed back:
    along any trace, its keys are the keys it had and the batches pulled
    since. *)
Theorem cache_domain h0 input n proj d h es op :
  reachable h0 input n proj d h →
  admissible_trace (dom (arrays h0)) d h es →
  operators h !! d = Some op →
  ∃ op', operators (run d es h) !! d = Some op' ∧
         dom (op_batches op') = dom (op_batches op) ∪ pulled es.
Proof.
  intros Hreach. apply reachable_Inv in Hreach as HInv. clear Hreach.
  revert h op HInv. induction es as [|e es IH]; intros h op HInv Hes Hd.
  - exists op. split; [done|]. simpl. by rewrite union_empty_r_L.
  - destruct Hes as [He Hes].
    assert (∃ op1, operators (step d e h) !! d = Some op1 ∧
                   dom (op_batches op1) = dom (op_batches op) ∪ pulled [e])
      as (op1 & Hd1 & Hdom1).
    { destruct e as [batch|v t|vs bs|level|a i x]; cbn [pulled];
        rewrite ?union_empty_r_L.
      - destruct (op_batches op !! batch) as [v|] eqn:Hb.
        + exists op. simpl. rewrite (Next_hit_Inv _ _ _ _ _ _ _ HInv Hd Hb).
          split; [done|]. apply elem_of_dom_2 in Hb.
          rewrite union_comm_L. symmetry. apply subseteq_union_1_L.
          by apply singleton_subseteq_l.
        + eexists. simpl. rewrite (Next_miss_Inv _ _ _ _ _ _ HInv Hd Hb). heap_simpl.
          split; [apply lookup_insert_eq|]. cbn [op_batches].
          rewrite dom_insert_L. apply union_comm_L.
      - exists op. destruct (Append_operators _ _ _ _ v t HInv He) as [-> _]. done.
      - by exists op.
      - by exists op.
      - by exists op. }
    destruct (IH _ op1 (Inv_step _ _ _ _ _ He HInv) Hes Hd1) as (op2 & Hd2 & Hdom2).
    exists op2. split; [done|].
    rewrite Hdom2, Hdom1, (pulled_cons e es). symmetry. apply (assoc_L (∪)).
Qed.

(** ** The threshold follows the size of the cache *)

Lemma step_verbosity ext P d h e :
  Inv ext P d h → admissible ext d h e → level_kept [e] = true →
  verbosity (step d e h) = verbosity h.
Proof.
  intros HInv Hadm Hkept. pose proof HInv as [_ (op & a & Hd & _ & _ & Hviews & _)].
  destruct e as [batch|v t|vs bs|level|a0 i x]; try done.
  - destruct (op_batches op !! batch) as [v|] eqn:Hb; simpl.
    + by rewrite (Next_hit_Inv _ _ _ _ _ _ _ HInv Hd Hb).
    + by rewrite (Next_miss_Inv _ _ _ _ _ _ HInv Hd Hb).
  - destruct Hadm as (op0 & k & Hd0 & Hk). assert (op0 = op) as -> by congruence.
    destruct (Hviews _ _ Hk) as (pb & a' & xs & Hpb & HB & (_ & _ & Hvalid & _) & _).
    simpl. destruct k as [l|].
    + destruct (membatches h !! l) as [cols|] eqn:Hl.
      * destruct (AppendCol_spec h v t pb l cols Hpb HB Hl Hvalid)
          as (s' & an & arrs' & Hcall & _).
        cbn zeta in Hcall. by rewrite Hcall.
      * rewrite (AppendCol_no_batch h v t pb Hpb); [done|]. congruence.
    + rewrite (AppendCol_no_batch h v t pb Hpb); [done|]. congruence.
Qed.

Lemma threshold_state_step ext P d h e k :
  Inv ext P d h → admissible ext d h e → threshold_state d h k →
  (threshold_state d (step d e h) k ∧ logged (step d e h) = logged h) ∨
  (threshold_state d (step d e h) (S k) ∧
   logged (step d e h) = logged h ++ (if 1 <=? verbosity h then [threshold k] else [])).
Proof.
  intros HInv Hadm (op & Hd & Hthr & Hk & Hlt & Hge).
  assert (threshold_state d h k) as Hst by (exists op; done).
  destruct e as [batch|v t|vs bs|level|a i x].
  - destruct (op_batches op !! batch) as [v|] eqn:Hb; simpl.
    { left. by rewrite (Next_hit_Inv _ _ _ _ _ _ _ HInv Hd Hb). }
    rewrite (Next_miss_Inv _ _ _ _ _ _ HInv Hd Hb). heap_simpl.
    rewrite map_size_insert_None by done.
    unfold threshold_after_miss, logged_after_miss, threshold_state. heap_simpl.
    destruct (decide (Z.of_nat (S (size (op_batches op))) =
                      op_numBatchesLoggingThreshold op)) as [Heq|Hne].
    + right.
      assert (k ≤ 55)%nat as Hk55.
      { destruct (decide (k = 56%nat)) as [->|]; [|lia].
        rewrite Hthr, int_threshold_56 in Heq. lia. }
      rewrite int_threshold in Hthr by done. split.
      * eexists. split; [apply lookup_insert_eq|].
        cbn [op_numBatchesLoggingThreshold op_batches].
        rewrite map_size_insert_None by done.
        split; [by rewrite Hthr, threshold_S, Z.mul_comm|]. split; [lia|].
        split; [intros _; rewrite threshold_S; lia|].
        intros j [= <-]. lia.
      * rewrite Heq, Hthr. by destruct (1 <=? verbosity h); rewrite ?app_nil_r.
    + left. split; [|done]. eexists. split; [apply lookup_insert_eq|].
      cbn [op_numBatchesLoggingThreshold op_batches].
      rewrite map_size_insert_None by done.
      split; [done|]. split; [done|]. split.
      * intros Hk55. specialize (Hlt Hk55). rewrite int_threshold in Hthr by done. lia.
      * intros j Hj. specialize (Hge j Hj). lia.
  - left. destruct (Append_operators _ _ _ _ v t HInv Hadm) as [Hops Hlg].
    split; [|done]. exists op. by rewrite Hops.
  - by left.
  - by left.
  - by left.
Qed.

Lemma threshold_state_new h0 input n proj d h1 :
  valid_slice h0 proj →
  projectionIsRedundant n proj h0 = false →
  NewSimpleProjectOp input n proj h0 = (Ok (projectOp d), h1) →
  threshold_state d h1 0 ∧ logged h1 = logged h0 ∧ verbosity h1 = verbosity h0.
Proof.
  intros Hvalid Hred Hnew.
  rewrite (NewSimpleProjectOp_new input n proj h0 Hred Hvalid) in Hnew.
  injection Hnew as <- <-. heap_simpl. split; [|done].
  eexists. split; [apply lookup_insert_eq|]. cbn.
  split; [done|]. split; [lia|]. split; [|done].
  intros _. rewrite map_size_empty. apply threshold_pos.
Qed.

(** The threshold is the least [128 * 2^k] above the size of the cache:
    after [k] doublings the cache has fewer than [128 * 2^k] entries and,
    when [k > 0], at least [128 * 2^(k-1)].  In particular the threshold is
    128 as long as the cache has fewer than 128 entries. *)
Theorem threshold_tracks_size h0 input n proj d h :
  reachable h0 input n proj d h →
  ∃ op k,
    operators h !! d = Some op ∧
    op_numBatchesLoggingThreshold op = int (threshold k) ∧ (k ≤ 56)%nat ∧
    ((k ≤ 55)%nat → Z.of_nat (size (op_batches op)) < threshold k) ∧
    (∀ j, k = S j → threshold j ≤ Z.of_nat (size (op_batches op))) ∧
    (Z.of_nat (size (op_batches op)) < 128 → op_numBatchesLoggingThreshold op = 128).
Proof.
  intros Hreach.
  assert (∃ k, threshold_state d h k) as (k & op & Hd & Hthr & Hk & Hlt & Hge).
  { induction Hreach as [h1 Hvalid Hred Hnew|h e Hreach (k & Hst) Hadm].
    - exists 0%nat. by eapply threshold_state_new.
    - apply reachable_Inv in Hreach as HInv.
      destruct (threshold_state_step _ _ _ _ e k HInv Hadm Hst) as [[? _]|[? _]]; eauto. }
  exists op, k. split_and!; try done.
  intros Hsmall. destruct k as [|j]; [by rewrite Hthr|].
  specialize (Hge j eq_refl). pose proof (threshold_pos j) as Hpos.
  assert (threshold 0 ≤ threshold j); [|change (threshold 0) with 128 in *; lia].
  unfold threshold. apply Z.mul_le_mono_nonneg_l; [lia|].
  apply Z.pow_le_mono_r; lia.
Qed.

Lemma log_run ext P d h es k :
  Inv ext P d h → threshold_state d h k →
  admissible_trace ext d h es → level_kept es = true →
  ∃ j, threshold_state d (run d es h) (k + j) ∧
       logged (run d es h) =
         logged h ++ (if 1 <=? verbosity h then threshold <$> seq k j else []).
Proof.
  revert h k. induction es as [|e es IH]; intros h k HInv Hst Hes Hkept.
  - exists 0%nat. rewrite Nat.add_0_r. split; [done|]. simpl.
    by destruct (1 <=? verbosity h); rewrite app_nil_r.
  - destruct Hes as [He Hes].
    assert (level_kept [e] = true ∧ level_kept es = true) as [Hke Hkes].
    { by destruct e. }
    pose proof (step_verbosity _ _ _ _ e HInv He Hke) as Hvb.
    pose proof (Inv_step _ _ _ _ _ He HInv) as HInv1.
    destruct (threshold_state_step _ _ _ _ e k HInv He Hst) as [[Hst1 Hlg1]|[Hst1 Hlg1]].
    + destruct (IH _ k HInv1 Hst1 Hes Hkes) as (j & Hstj & Hlgj).
      exists j. split; [done|]. simpl. by rewrite Hlgj, Hlg1, Hvb.
    + destruct (IH _ (S k) HInv1 Hst1 Hes Hkes) as (j & Hstj & Hlgj).
      exists (S j). replace (k + S j)%nat with (S k + j)%nat by lia.
      split; [done|]. simpl. rewrite Hlgj, Hlg1, Hvb.
      destruct (1 <=? verbosity h); by rewrite <- app_assoc.
Qed.

(** While the logging level is not changed, the log is exact: when the
    level passes [log.V(1)], the operator has logged the sizes 128, 256,
    ..., [128 * 2^(k-1)], each once and in this order, where [k] is the
    number of doublings so far; when it does not, the operator has logged
    nothing. *)
Theorem log_exact h0 input n proj d h1 es :
  valid_slice h0 proj →
  projectionIsRedundant n proj h0 = false →
  NewSimpleProjectOp input n proj h0 = (Ok (projectOp d), h1) →
  admissible_trace (dom (arrays h0)) d h1 es →
  level_kept es = true →
  ∃ op k,
    operators (run d es h1) !! d = Some op ∧
    op_numBatchesLoggingThreshold op = int (threshold k) ∧
    logged (run d es h1) =
      logged h0 ++ (if 1 <=? verbosity h0 then reported k else []).
Proof.
  intros Hvalid Hred Hnew Hes Hkept.
  destruct (threshold_state_new _ _ _ _ _ _ Hvalid Hred Hnew) as (Hst & Hlg & Hvb).
  pose proof (Inv_new _ _ _ _ _ _ Hvalid Hred Hnew) as HInv.
  destruct (log_run _ _ _ _ es 0 HInv Hst Hes Hkept) as (j & (op & Hd & Hthr & _) & Hlog).
  exists op, j. split; [done|]. split; [done|]. by rewrite Hlog, Hlg, Hvb.
Qed.

(** ** The constructor and the cache invariant *)

(** What [NewSimpleProjectOp] does in each case, as the code decides it:
    when the list has [numInputCols] elements and each is its index
    converted to [uint32], [input] is returned and nothing is written; in
    every other case (a different length, a negative [numInputCols], an
    element out of place) a new operator is allocated that holds [input],
    an empty cache, the threshold 128 and the elements of the list in a
    new array, and nothing that existed is written. *)
Theorem NewSimpleProjectOp_cases input n proj h :
  valid_slice h proj →
  let same := n = Go.len proj ∧
              ∀ i x, Go.elems h proj !! i = Some x → x = uint32 (Z.of_nat i) in
  let l := fresh (dom (operators h)) in
  let a := fresh (dom (arrays h)) in
  let p := Slice (Some a) 0 (sl_len proj) (sl_len proj) in
  let h' := MkHeap (<[a := Go.elems h proj]> (arrays h)) (vecs h) (membatches h)
              (pbatches h) (<[l := SimpleProjectOp input p ∅ 128]> (operators h))
              (verbosity h) (logged h) in
  (same → NewSimpleProjectOp input n proj h = (Ok input, h)) ∧
  (¬ same →
     NewSimpleProjectOp input n proj h = (Ok (projectOp l), h') ∧
     (l ∉ dom (operators h)) ∧ (a ∉ dom (arrays h)) ∧
     Go.elems h' p = Go.elems h proj ∧ Go.elems h' proj = Go.elems h proj) ∧
  (n ≠ Go.len proj → ¬ same).
Proof.
  intros Hvalid same l a p h'. split; [|split].
  - intros Hsame. apply NewSimpleProjectOp_elided. by apply projectionIsRedundant_iff.
  - intros Hnot. destruct (projectionIsRedundant n proj h) eqn:Hred.
    { exfalso. by apply Hnot, projectionIsRedundant_iff. }
    assert (a ∉ dom (arrays h)) as Ha by apply is_fresh.
    split; [by apply NewSimpleProjectOp_new|]. split; [apply is_fresh|]. split; [done|].
    split.
    + assert (owns h' p a (Go.elems h proj)) as (_ & _ & _ & Hel); [|done].
      apply owns_new; [apply lookup_insert_eq | by apply length_elems].
    + by apply (elems_fresh h h' proj a (Go.elems h proj) Hvalid Ha).
  - intros Hn [Hsame _]. done.
Qed.

(** A cached view always wraps the batch it is cached under, so a view is
    never left pointing at another batch than its own; and the lists of
    the views sit in arrays that are pairwise different and different
    from the array of the operator's list, so that an [AppendCol] through
    one view cannot write into the list of another. *)
Theorem cached_views_apart h0 input n proj d h :
  reachable h0 input n proj d h →
  ∃ op a,
    operators h !! d = Some op ∧ sl_ptr (op_projection op) = Some a ∧
    (∀ k v, op_batches op !! k = Some v →
       ∃ pb a', pbatches h !! v = Some pb ∧ pb_Batch pb = k ∧
                sl_ptr (pb_projection pb) = Some a' ∧ a' ≠ a ∧
                valid_slice h (pb_projection pb)) ∧
    (∀ k1 k2 v1 v2 pb1 pb2,
       op_batches op !! k1 = Some v1 → op_batches op !! k2 = Some v2 →
       pbatches h !! v1 = Some pb1 → pbatches h !! v2 = Some pb2 →
       k1 ≠ k2 →
       v1 ≠ v2 ∧ sl_ptr (pb_projection pb1) ≠ sl_ptr (pb_projection pb2)).
Proof.
  intros Hreach. apply reachable_Inv in Hreach as HInv.
  destruct HInv as [_ (op & a & Hd & (Hp & _) & _ & Hviews & Hsep)].
  exists op, a. split; [done|]. split; [done|]. split.
  - intros k v Hk.
    destruct (Hviews _ _ Hk) as (pb & a' & xs & Hpb & HB & (Hp' & _ & Hvalid & _) & _ & ?).
    by exists pb, a'.
  - intros k1 k2 v1 v2 pb1 pb2 Hk1 Hk2 Hpb1 Hpb2 Hne. split.
    + intros ->.
      destruct (Hviews _ _ Hk1) as (pb & _ & _ & Hpb & HB & _).
      destruct (Hviews _ _ Hk2) as (pb' & _ & _ & Hpb' & HB' & _). congruence.
    + intros Hptr. apply Hne. by apply (Hsep k1 k2 v1 v2 pb1 pb2).
Qed.

(** ** The further properties on the small pipeline *)

Lemma ex_valid : valid_slice ex_heap ex_proj.
Proof. exists [2; 0]. split; [reflexivity|]. simpl. lia. Defined.

Lemma ex_view_valid : valid_slice ex_view_heap (pb_projection ex_view).
Proof. exists [2; 0]. split; [reflexivity|]. simpl. lia. Defined.

Lemma ex_two_views_reachable :
  reachable ex_heap (otherOp 9%positive) 3 ex_proj 1%positive ex_two_views.
Proof.
  apply (reachable_run _ _ _ _ _ _ [Pull (Some 5%positive); Pull (Some 6%positive)]
           ex_reachable).
  simpl. tauto.
Defined.

Lemma newProjectionBatch_copies_witness :
  valid_slice ex_heap ex_proj ∧
  fst (newProjectionBatch ex_proj ex_heap) = Ok 1%positive ∧
  arrays ex_unpointed !! 2%positive = Some [2; 0].
Proof.
  split; [exact ex_valid|].
  destruct (newProjectionBatch_copies ex_heap ex_proj ex_valid) as (Hcall & _).
  unfold ex_unpointed. rewrite Hcall. split; vm_compute; reflexivity.
Defined.

Lemma ColVec_panics_witness :
  pbatches ex_view_heap !! 1%positive = Some ex_view ∧
  ColVec 1%positive 2 ex_view_heap = (Panicked index_out_of_range, ex_view_heap) ∧
  ColVec 1%positive (-1) ex_view_heap = (Panicked index_out_of_range, ex_view_heap).
Proof.
  split; [reflexivity|].
  destruct (ColVec_panics ex_view_heap 1%positive ex_view 2 eq_refl) as (Hhigh & _).
  destruct (ColVec_panics ex_view_heap 1%positive ex_view (-1) eq_refl) as (Hlow & _).
  split; [apply Hhigh; right; vm_compute; discriminate | apply Hlow; left; lia].
Defined.

Lemma AppendCol_without_batch_witness :
  pbatches ex_unpointed !! 1%positive =
    Some (ProjectingBatch None (Slice (Some 2%positive) 0 2 2)) ∧
  AppendCol 1%positive 7 ex_unpointed = (Panicked nil_dereference, ex_unpointed).
Proof.
  split; [vm_compute; reflexivity|].
  exact (proj1 (AppendCol_without_batch ex_unpointed 1%positive 7
                  (ProjectingBatch None (Slice (Some 2%positive) 0 2 2))
                  ltac:(vm_compute; reflexivity) eq_refl)).
Defined.

Lemma AppendCol_keeps_columns_witness :
  pbatches ex_view_heap !! 1%positive = Some ex_view ∧
  valid_slice ex_view_heap (pb_projection ex_view) ∧
  fst (ColVec 1%positive 0 ex_view_heap) = Ok 12%positive ∧
  fst (ColVec 1%positive 0 (snd (AppendCol 1%positive 7 ex_view_heap))) = Ok 12%positive.
Proof.
  split; [reflexivity|]. split; [exact ex_view_valid|].
  exact (AppendCol_keeps_columns ex_view_heap 1%positive 7 ex_view 5%positive
           [10%positive; 11%positive; 12%positive] 0%nat 2 12%positive
           eq_refl eq_refl eq_refl ex_view_valid eq_refl ltac:(lia) eq_refl).
Defined.

Lemma AppendCol_twice_witness :
  pbatches ex_view_heap !! 1%positive = Some ex_view ∧
  valid_slice ex_view_heap (pb_projection ex_view) ∧
  Z.of_nat (length [10%positive; 11%positive; 12%positive]) + 1 < 2 ^ 32 ∧
  fst (Width 1%positive
         (snd (AppendCol 1%positive 8 (snd (AppendCol 1%positive 7 ex_view_heap))))) = Ok 4.
Proof.
  assert (Z.of_nat (length [10%positive; 11%positive; 12%positive]) + 1 < 2 ^ 32) as Hlt
    by (simpl; lia).
  split; [reflexivity|]. split; [exact ex_view_valid|]. split; [exact Hlt|].
  destruct (AppendCol_twice ex_view_heap 1%positive 7 8 ex_view 5%positive
              [10%positive; 11%positive; 12%positive]
              eq_refl eq_refl eq_refl ex_view_valid Hlt)
    as (v1 & v2 & _ & _ & _ & _ & Hw & _).
  exact Hw.
Defined.

Lemma Next_nil_batch_witness :
  reachable ex_heap (otherOp 9%positive) 3 ex_proj 1%positive ex_built ∧
  ∃ o, fst (Next 1%positive None ex_built) = Ok o ∧
       fst (ColVec o 0 (step 1%positive (Pull None) ex_built)) = Panicked nil_dereference.
Proof.
  split; [exact ex_reachable|].
  destruct (Next_nil_batch _ _ _ _ _ _ ex_reachable) as (o & w & Hnext & _ & _ & Hcol).
  exists o. split; [by rewrite Hnext|].
  assert (0 < length (Go.elems ex_heap ex_proj))%nat as Hlt by (vm_compute; lia).
  pose proof (Hcol 0%nat Hlt) as H0. change (Z.of_nat 0) with 0 in H0.
  by rewrite H0.
Defined.

Lemma Next_view_list_witness :
  reachable ex_heap (otherOp 9%positive) 3 ex_proj 1%positive ex_built ∧
  ∃ o pb,
    pbatches (step 1%positive (Pull (Some 5%positive)) ex_built) !! o = Some pb ∧
    Go.elems (step 1%positive (Pull (Some 5%positive)) ex_built) (pb_projection pb)
      = [2; 0].
Proof.
  split; [exact ex_reachable|].
  destruct (Next_view_list _ _ _ _ _ _ (Some 5%positive) ex_reachable)
    as (o & pb & xs & _ & Hpb & Hel & _ & Hmiss).
  exists o, pb. split; [exact Hpb|].
  rewrite Hel, (Hmiss (SimpleProjectOp (otherOp 9%positive)
                         (Slice (Some 2%positive) 0 2 2) ∅ 128));
    vm_compute; reflexivity.
Defined.

Lemma view_is_live_witness :
  reachable ex_heap (otherOp 9%positive) 3 ex_proj 1%positive ex_built ∧
  ∃ o, fst (Next 1%positive (Some 5%positive) ex_built) = Ok o ∧
       fst (ColVec o 0
              (step 1%positive
                 (Upstream ∅ {[ 5%positive := [20%positive; 21%positive; 22%positive] ]})
                 (step 1%positive (Pull (Some 5%positive)) ex_built))) = Ok 22%positive.
Proof.
  split; [exact ex_reachable|].
  exact (view_is_live _ _ _ _ _ _ 5%positive ∅
           {[ 5%positive := [20%positive; 21%positive; 22%positive] ]}
           [20%positive; 21%positive; 22%positive] 0%nat 2 22%positive
           ex_reachable eq_refl eq_refl ltac:(lia) eq_refl).
Defined.

Lemma AppendCol_other_views_witness :
  reachable ex_heap (otherOp 9%positive) 3 ex_proj 1%positive ex_two_views ∧
  view_of 1%positive ex_two_views 1%positive ∧
  view_of 1%positive ex_two_views 2%positive ∧
  fst (Width 2%positive (step 1%positive (Append 1%positive 7) ex_two_views)) =
  fst (Width 2%positive ex_two_views).
Proof.
  assert (view_of 1%positive ex_two_views 1%positive) as Hv1.
  { eexists _, (Some 5%positive). split; vm_compute; reflexivity. }
  assert (view_of 1%positive ex_two_views 2%positive) as Hv2.
  { eexists _, (Some 6%positive). split; vm_compute; reflexivity. }
  split; [exact ex_two_views_reachable|]. split; [exact Hv1|]. split; [exact Hv2|].
  exact (proj1 (AppendCol_other_views _ _ _ _ _ _ 1%positive 2%positive 7 0
                  ex_two_views_reachable Hv1 Hv2 ltac:(discriminate))).
Defined.

Lemma cache_domain_witness :
  reachable ex_heap (otherOp 9%positive) 3 ex_proj 1%positive ex_built ∧
  admissible_trace (dom (arrays ex_heap)) 1%positive ex_built
    [Pull (Some 5%positive); Pull (Some 6%positive); Pull (Some 5%positive)] ∧
  ∃ op', operators (run 1%positive
                      [Pull (Some 5%positive); Pull (Some 6%positive); Pull (Some 5%positive)]
                      ex_built) !! 1%positive = Some op' ∧
         dom (op_batches op') =
           ∅ ∪ pulled [Pull (Some 5%positive); Pull (Some 6%positive); Pull (Some 5%positive)].
Proof.
  assert (admissible_trace (dom (arrays ex_heap)) 1%positive ex_built
            [Pull (Some 5%positive); Pull (Some 6%positive); Pull (Some 5%positive)])
    as Hes by (simpl; tauto).
  split; [exact ex_reachable|]. split; [exact Hes|].
  exact (cache_domain _ _ _ _ _ _ _
           (SimpleProjectOp (otherOp 9%positive) (Slice (Some 2%positive) 0 2 2) ∅ 128)
           ex_reachable Hes ltac:(vm_compute; reflexivity)).
Defined.

Lemma threshold_tracks_size_witness :
  reachable ex_heap (otherOp 9%positive) 3 ex_proj 1%positive ex_two_views ∧
  ∃ op, operators ex_two_views !! 1%positive = Some op ∧
        op_numBatchesLoggingThreshold op = 128.
Proof.
  split; [exact ex_two_views_reachable|].
  destruct (threshold_tracks_size _ _ _ _ _ _ ex_two_views_reachable)
    as (op & k & Hd & _ & _ & _ & _ & Hsmall).
  exists op. split; [exact Hd|]. apply Hsmall.
  assert (op = SimpleProjectOp (otherOp 9%positive) (Slice (Some 2%positive) 0 2 2)
                 {[ Some 5%positive := 1%positive; Some 6%positive := 2%positive ]} 128)
    as ->.
  { assert (operators ex_two_views !! 1%positive =
            Some (SimpleProjectOp (otherOp 9%positive) (Slice (Some 2%positive) 0 2 2)
                 {[ Some 5%positive := 1%positive; Some 6%positive := 2%positive ]} 128))
      as Hd' by (vm_compute; reflexivity).
    pose proof (eq_trans (eq_sym Hd) Hd') as Heq. by injection Heq. }
  vm_compute. reflexivity.
Defined.

Lemma log_exact_witness :
  valid_slice ex_heap ex_proj ∧
  projectionIsRedundant 3 ex_proj ex_heap = false ∧
  NewSimpleProjectOp (otherOp 9%positive) 3 ex_proj ex_heap = (Ok (projectOp 1%positive), ex_built) ∧
  admissible_trace (dom (arrays ex_heap)) 1%positive ex_built [Pull (Some 5%positive)] ∧
  level_kept [Pull (Some 5%positive)] = true ∧
  ∃ op k, operators (run 1%positive [Pull (Some 5%positive)] ex_built) !! 1%positive = Some op ∧
          op_numBatchesLoggingThreshold op = int (threshold k) ∧
          logged (run 1%positive [Pull (Some 5%positive)] ex_built) =
            logged ex_heap ++ (if 1 <=? verbosity ex_heap then reported k else []).
Proof.
  assert (projectionIsRedundant 3 ex_proj ex_heap = false) as Hred
    by (vm_compute; reflexivity).
  assert (NewSimpleProjectOp (otherOp 9%positive) 3 ex_proj ex_heap =
          (Ok (projectOp 1%positive), ex_built)) as Hnew by (vm_compute; reflexivity).
  assert (admissible_trace (dom (arrays ex_heap)) 1%positive ex_built
            [Pull (Some 5%positive)]) as Hes by (simpl; tauto).
  split; [exact ex_valid|]. split; [exact Hred|]. split; [exact Hnew|].
  split; [exact Hes|]. split; [reflexivity|].
  exact (log_exact _ _ _ _ _ _ _ ex_valid Hred Hnew Hes eq_refl).
Defined.

Lemma NewSimpleProjectOp_cases_witness :
  valid_slice ex_heap ex_proj ∧
  fst (NewSimpleProjectOp (otherOp 9%positive) 3 ex_proj ex_heap) = Ok (projectOp 1%positive).
Proof.
  split; [exact ex_valid|].
  destruct (NewSimpleProjectOp_cases (otherOp 9%positive) 3 ex_proj ex_heap ex_valid)
    as (_ & Hnew & Hlen).
  destruct Hnew as (Hcall & _).
  { apply Hlen. vm_compute. discriminate. }
  rewrite Hcall. vm_compute. reflexivity.
Defined.

Lemma cached_views_apart_witness :
  reachable ex_heap (otherOp 9%positive) 3 ex_proj 1%positive ex_two_views ∧
  ∃ op a, operators ex_two_views !! 1%positive = Some op ∧
          sl_ptr (op_projection op) = Some a.
Proof.
  split; [exact ex_two_views_reachable|].
  destruct (cached_views_apart _ _ _ _ _ _ ex_two_views_reachable)
    as (op & a & Hd & Hp & _).
  exists op, a. split; [exact Hd | exact Hp].
Defined.
